(** * PixForge dithering engine: a shallow embedding and its properties

    The development follows [pixforge/dithers/__init__.py], [floyd.py],
    [atkinson.py], [sierra.py] and [bayer.py], the scaling helpers
    [utils/upscale.py] and [utils/pixelate.py], and the frame pipeline of
    [video_frames.py].

    Numbers.  Python integers are [Z].  NumPy [float32]/[float64] values
    are modelled by exact rationals: the embedding keeps every operation
    the source performs (multiplications, divisions, [np.rint],
    [np.floor], [np.clip]) in the order the source performs it, and leaves
    out the rounding of each intermediate result to the nearest
    representable float.  Scalars are in [Q]; the work buffer of the
    error-diffusion dithers holds canonical rationals [Qc], whose equality
    is equality of numbers.  [np.rint] and Python's [round] both round a
    tie to the even neighbour; [rint] below does the same.

    Arrays.  An array of shape (H, W, 3) is a list of rows of pixels.
    NumPy arrays are rectangular; statements about whole images assume
    [has_shape]. *)

From Stdlib Require Import ZArith QArith Qcanon Qround Qabs Lia Lqa Bool String.
From stdpp Require Import base list.

Local Open Scope Z_scope.

(** ** Errors raised by the source *)

Inductive error : Type :=
| ValueError        (* raise ValueError(...) *)
| ZeroDivisionError (* float division by a zero Python int *)
| OutOfFuel.        (* artefact of the fuel-bounded loops; proved unreachable *)

Inductive result (A : Type) : Type :=
| Ok (a : A)
| Err (e : error).
Arguments Ok {A} a.
Arguments Err {A} e.

(** ** LevelSelector: [_levels_from_num_colors] *)

Module Levels.

(** [while L ** 3 > num_colors and L > 2: L -= 1] *)
Fixpoint dec_loop (fuel : nat) (num_colors L : Z) : option Z :=
  match fuel with
  | O => None
  | S fuel' =>
      if (L ^ 3 >? num_colors) && (L >? 2)
      then dec_loop fuel' num_colors (L - 1)
      else Some L
  end.

(** [while (L + 1) ** 3 <= num_colors: L += 1] *)
Fixpoint inc_loop (fuel : nat) (num_colors L : Z) : option Z :=
  match fuel with
  | O => None
  | S fuel' =>
      if (L + 1) ^ 3 <=? num_colors
      then inc_loop fuel' num_colors (L + 1)
      else Some L
  end.

Section WithCubeRoot.

(** [int(round(num_colors ** (1 / 3)))] is a [float64] computation; the
    selector is embedded over whatever integer it yields. *)
Variable cbrt_round : Z -> Z.

Definition _levels_from_num_colors (num_colors : Z) : result Z :=
  if num_colors <? 2 then Err ValueError
  else
    let L := cbrt_round num_colors in
    let L := Z.max 2 L in
    match dec_loop (S (Z.to_nat L)) num_colors L with
    | None => Err OutOfFuel
    | Some L =>
        match inc_loop (S (Z.to_nat num_colors)) num_colors L with
        | None => Err OutOfFuel
        | Some L => Ok (Z.max 2 L)
        end
    end.

End WithCubeRoot.

(** The integer nearest to the real cube root of [n], found by search:
    the [r] with [(2r-1)^3 <= 8n < (2r+1)^3]. *)
Fixpoint nearest_cbrt_from (fuel : nat) (n r : Z) : Z :=
  match fuel with
  | O => r
  | S fuel' =>
      if (2 * r + 1) ^ 3 <=? 8 * n then nearest_cbrt_from fuel' n (r + 1) else r
  end.

Definition nearest_cbrt (n : Z) : Z := nearest_cbrt_from (Z.to_nat n) n 0.

End Levels.

(** *** Properties of the two loops *)

Lemma cube_mono (a b : Z) : 0 <= a -> a <= b -> a ^ 3 <= b ^ 3.
Proof. intros Ha Hab. apply Z.pow_le_mono_l. lia. Qed.

Lemma cube_lt_inv (a b : Z) : 0 <= a -> 0 <= b -> a ^ 3 < b ^ 3 -> a < b.
Proof.
  intros Ha Hb H. destruct (Z_lt_le_dec a b) as [|Hle]; [assumption|].
  pose proof (cube_mono b a Hb Hle). lia.
Qed.

Lemma cube_ge_self (a : Z) : 1 <= a -> a <= a ^ 3.
Proof. intros Ha. replace (a ^ 3) with (a * a * a) by ring. nia. Qed.

Lemma dec_loop_spec (fuel : nat) (n L : Z) :
  2 <= L -> (Z.to_nat L < fuel)%nat ->
  exists L', Levels.dec_loop fuel n L = Some L'
             /\ 2 <= L' <= L /\ (L' ^ 3 <= n \/ L' = 2).
Proof.
  revert L. induction fuel as [|fuel IH]; intros L HL Hfuel; [lia|].
  simpl. destruct (L ^ 3 >? n) eqn:Hc; simpl.
  - destruct (L >? 2) eqn:H2.
    + destruct (IH (L - 1)) as (L' & -> & Hb & Hd); [lia | lia |].
      exists L'. repeat split; try lia; try exact Hd.
    + exists L. repeat split; try lia.
  - exists L. repeat split; try lia.
Qed.

Lemma inc_loop_spec (fuel : nat) (n L : Z) :
  2 <= L -> (L ^ 3 <= n \/ L = 2) -> (Z.to_nat (n - L) < fuel)%nat ->
  exists L', Levels.inc_loop fuel n L = Some L'
             /\ L <= L' /\ n < (L' + 1) ^ 3 /\ (L' ^ 3 <= n \/ L' = 2).
Proof.
  revert L. induction fuel as [|fuel IH]; intros L HL Hd Hfuel; [lia|].
  simpl. destruct ((L + 1) ^ 3 <=? n) eqn:Hc.
  - apply Z.leb_le in Hc.
    pose proof (cube_ge_self (L + 1) ltac:(lia)).
    destruct (IH (L + 1)) as (L' & -> & Hb & Hu & Hd'); [lia | left; lia | lia |].
    exists L'. repeat split; try lia; try exact Hd'.
  - apply Z.leb_gt in Hc. exists L. repeat split; try lia; try exact Hd.
Qed.

(** The selector returns for every request of at least two colours, and
    the result does not depend on the starting guess. *)
Lemma levels_total (cbrt_round : Z -> Z) (n : Z) :
  2 <= n ->
  exists L, Levels._levels_from_num_colors cbrt_round n = Ok L
            /\ 2 <= L /\ n < (L + 1) ^ 3 /\ (L ^ 3 <= n \/ L = 2).
Proof.
  intros Hn. unfold Levels._levels_from_num_colors.
  destruct (n <? 2) eqn:Hlt; [apply Z.ltb_lt in Hlt; lia|].
  destruct (dec_loop_spec (S (Z.to_nat (Z.max 2 (cbrt_round n)))) n
              (Z.max 2 (cbrt_round n))) as (L1 & -> & Hb1 & Hd1); [lia | lia |].
  destruct (inc_loop_spec (S (Z.to_nat n)) n L1) as (L2 & -> & Hb2 & Hu2 & Hd2);
    [lia | exact Hd1 | lia |].
  exists (Z.max 2 L2). rewrite Z.max_r by lia. repeat split; try lia; try exact Hd2.
Qed.

(** C2. For every [num_colors] in [2,256] the level selector returns,
    whatever integer the floating-point cube root rounds to, the unique
    [L >= 2] with [L^3 <= num_colors < (L+1)^3]; below 8 colours it returns
    exactly 2. *)
Theorem levels_from_num_colors_spec (cbrt_round : Z -> Z) (num_colors : Z) :
  2 <= num_colors <= 256 ->
  exists L, Levels._levels_from_num_colors cbrt_round num_colors = Ok L
            /\ 2 <= L
            /\ (num_colors < 8 -> L = 2)
            /\ (8 <= num_colors ->
                L ^ 3 <= num_colors < (L + 1) ^ 3
                /\ forall L', 2 <= L' -> L' ^ 3 <= num_colors < (L' + 1) ^ 3 -> L' = L).
Proof.
  intros [Hlo Hhi].
  destruct (levels_total cbrt_round num_colors Hlo) as (L & HL & H2 & Hu & Hd).
  exists L. split; [exact HL|]. split; [exact H2|]. split.
  - intros H8. destruct Hd as [Hd| ->]; [|reflexivity].
    pose proof (cube_mono 3 L ltac:(lia)).
    destruct (Z_lt_le_dec L 3) as [|H3]; [lia|].
    specialize (H H3). change (3 ^ 3) with 27 in H. lia.
  - intros H8.
    assert (Hcube : L ^ 3 <= num_colors).
    { destruct Hd as [Hd| ->]; [exact Hd | change (2 ^ 3) with 8; lia]. }
    split; [lia|]. intros L' HL' [Ha Hb].
    assert (L' < L + 1) by (apply cube_lt_inv; lia).
    assert (L < L' + 1) by (apply cube_lt_inv; lia).
    lia.
Qed.

Lemma levels_from_num_colors_spec_witness :
  exists L, Levels._levels_from_num_colors Levels.nearest_cbrt 27 = Ok L
            /\ 2 <= L
            /\ (27 < 8 -> L = 2)
            /\ (8 <= 27 ->
                L ^ 3 <= 27 < (L + 1) ^ 3
                /\ forall L', 2 <= L' -> L' ^ 3 <= 27 < (L' + 1) ^ 3 -> L' = L).
Proof. apply (levels_from_num_colors_spec Levels.nearest_cbrt 27). lia. Defined.

(** ** Rounding and clipping *)

Local Open Scope Q_scope.

(** [np.rint] and Python 3 [round]: nearest integer, a tie goes to the even
    neighbour. *)
Definition rint (q : Q) : Z :=
  let f := Qfloor q in
  match Qcompare (q - inject_Z f) (1 # 2) with
  | Lt => f
  | Gt => (f + 1)%Z
  | Eq => if Z.even f then f else (f + 1)%Z
  end.

(** [np.clip(x, lo, hi)] is [minimum(maximum(x, lo), hi)]. *)
Definition clip (x lo hi : Z) : Z := Z.min (Z.max x lo) hi.

(** Rounding half away from zero, the rounding the specification names. *)
Definition round_half_away (q : Q) : Z :=
  if Qle_bool 0 q then Qfloor (q + (1 # 2)) else Qceiling (q - (1 # 2)).

(** [clamp(x, lo, hi)] as the specification writes it. *)
Definition clamp (x lo hi : Z) : Z := Z.max lo (Z.min x hi).

(** ** UniformQuantizer *)

(** One element of [_quantize_none] ([__init__.py] and [bayer.py] hold the
    same body):
    [q = np.rint(arrf * (L - 1) / 255.0).clip(0, L - 1)],
    [out = np.rint(q * (255.0 / (L - 1))).clip(0, 255).astype(np.uint8)]. *)
Definition _quantize_none1 (v : Q) (L : Z) : Z :=
  if (L <=? 1)%Z then 0%Z
  else
    let q := clip (rint (v * inject_Z (L - 1) / 255)) 0 (L - 1) in
    clip (rint (inject_Z q * (255 / inject_Z (L - 1)))) 0 255.

(** One channel of [_quantize_levels] ([floyd.py], [atkinson.py],
    [sierra.py]); its value stays a float.  [255.0 / (L - 1)] divides by a
    Python int, so [L = 1] raises. *)
Definition _quantize_levels1 (v : Q) (L : Z) : result Q :=
  let q := rint (v * inject_Z (L - 1) / 255) in
  let q := clip q 0 (L - 1) in
  if (L - 1 =? 0)%Z then Err ZeroDivisionError
  else
    let out := rint (inject_Z q * (255 / inject_Z (L - 1))) in
    Ok (inject_Z (clip out 0 255)).

(** The quantizer as the specification words it, over a rounding mode:
    [level = clamp(round(sample*(L-1)/255), 0, L-1)],
    [output = clamp(round(level*255/(L-1)), 0, 255)], and 0 when [L <= 1]. *)
Definition spec_quantize (round : Q -> Z) (sample : Q) (L : Z) : Z :=
  if (L <=? 1)%Z then 0%Z
  else
    let level := clamp (round (sample * inject_Z (L - 1) / 255)) 0 (L - 1) in
    clamp (round (inject_Z level * 255 / inject_Z (L - 1))) 0 255.

(** *** [rint] in integer arithmetic *)

Lemma rint_Qmake (a : Z) (p : positive) :
  rint (a # p) =
  match (2 * (a mod Z.pos p) ?= Z.pos p)%Z with
  | Lt => (a / Z.pos p)%Z
  | Gt => (a / Z.pos p + 1)%Z
  | Eq => if Z.even (a / Z.pos p) then (a / Z.pos p)%Z else (a / Z.pos p + 1)%Z
  end.
Proof.
  unfold rint. cbn [Qfloor].
  set (f := (a / Z.pos p)%Z).
  assert (Hc : Qcompare ((a # p) - inject_Z f) (1 # 2) = (2 * (a mod Z.pos p) ?= Z.pos p)%Z).
  { unfold Qcompare, Qminus, Qplus, Qopp, inject_Z. cbn [Qnum Qden].
    pose proof (Z.div_mod a (Z.pos p) ltac:(lia)) as Hdm. fold f in Hdm.
    replace ((a * 1 + - f * Z.pos p) * 2)%Z with (2 * (a mod Z.pos p))%Z by lia.
    replace (1 * Z.pos (p * 1))%Z with (Z.pos p) by lia. reflexivity. }
  rewrite Hc. reflexivity.
Qed.

Lemma rint_bounds_Z (a : Z) (p : positive) :
  (2 * rint (a # p) * Z.pos p - Z.pos p <= 2 * a
   <= 2 * rint (a # p) * Z.pos p + Z.pos p)%Z.
Proof.
  rewrite rint_Qmake.
  pose proof (Z.div_mod a (Z.pos p) ltac:(lia)) as Hdm.
  pose proof (Z.mod_pos_bound a (Z.pos p) ltac:(lia)) as Hm.
  destruct (Z.compare_spec (2 * (a mod Z.pos p)) (Z.pos p));
    [destruct (Z.even (a / Z.pos p))|..]; nia.
Qed.

Lemma rint_unique_Z (a : Z) (p : positive) (z : Z) :
  (2 * z * Z.pos p - Z.pos p < 2 * a < 2 * z * Z.pos p + Z.pos p)%Z ->
  rint (a # p) = z.
Proof.
  intros Hz.
  pose proof (rint_bounds_Z a p) as Hb.
  assert (rint (a # p) - z < 1 /\ z - rint (a # p) < 1)%Z by nia.
  lia.
Qed.

Lemma rint_proper (q q' : Q) : q == q' -> rint q = rint q'.
Proof.
  intros Heq. unfold rint.
  rewrite (Qfloor_comp _ _ Heq).
  assert (H : Qcompare (q - inject_Z (Qfloor q')) (1 # 2)
              = Qcompare (q' - inject_Z (Qfloor q')) (1 # 2))
    by (rewrite Heq; reflexivity).
  rewrite H. reflexivity.
Qed.

Lemma rint_inject_Z (z : Z) : rint (inject_Z z) = z.
Proof. apply rint_unique_Z. lia. Qed.

(** [rint q] is a nearest integer of [q]. *)
Lemma rint_nearest (q : Q) : Qabs (q - inject_Z (rint q)) <= 1 # 2.
Proof.
  destruct q as [a p]. pose proof (rint_bounds_Z a p) as Hb.
  apply Qabs_Qle_condition.
  unfold Qle, Qminus, Qplus, Qopp, inject_Z. cbn [Qnum Qden].
  split; nia.
Qed.

(** On a tie [rint] picks the even neighbour. *)
Lemma rint_tie_even (q : Q) :
  q - inject_Z (Qfloor q) == 1 # 2 -> Z.even (rint q) = true.
Proof.
  intros Htie. unfold rint. apply Qeq_alt in Htie. rewrite Htie.
  destruct (Z.even (Qfloor q)) eqn:He; [exact He|].
  rewrite Z.even_add, He. reflexivity.
Qed.

Lemma clip_clamp (x lo hi : Z) : (lo <= hi)%Z -> clip x lo hi = clamp x lo hi.
Proof. unfold clip, clamp. lia. Qed.

Lemma clip_range (x lo hi : Z) : (lo <= hi)%Z -> (lo <= clip x lo hi <= hi)%Z.
Proof. unfold clip. lia. Qed.

Lemma clip_id (x lo hi : Z) : (lo <= x <= hi)%Z -> clip x lo hi = x.
Proof. unfold clip. lia. Qed.

(** *** The quantizer against the specification's formula *)

Lemma level_expr (q : Z) (p : positive) :
  inject_Z q * (255 / inject_Z (Z.pos p)) == (q * 255 # p).
Proof.
  unfold Qeq, Qdiv, Qmult, Qinv, inject_Z. cbn [Qnum Qden]. lia.
Qed.

Lemma index_expr (v : Z) (n : Z) : inject_Z v * inject_Z n / 255 == (v * n # 255).
Proof.
  unfold Qeq, Qdiv, Qmult, Qinv, inject_Z. cbn [Qnum Qden]. lia.
Qed.

Lemma quantize_none1_spec_eq (sample : Q) (L : Z) :
  (2 <= L)%Z -> _quantize_none1 sample L = spec_quantize rint sample L.
Proof.
  intros HL. unfold _quantize_none1, spec_quantize.
  destruct (L <=? 1)%Z eqn:H1; [apply Z.leb_le in H1; lia|].
  rewrite !clip_clamp by lia.
  f_equal. apply rint_proper. unfold Qdiv. ring.
Qed.

Lemma quantize_levels1_none1 (v : Q) (L : Z) :
  (2 <= L)%Z -> _quantize_levels1 v L = Ok (inject_Z (_quantize_none1 v L)).
Proof.
  intros HL. unfold _quantize_levels1, _quantize_none1.
  destruct (L - 1 =? 0)%Z eqn:H0; [apply Z.eqb_eq in H0; lia|].
  destruct (L <=? 1)%Z eqn:H1; [apply Z.leb_le in H1; lia|].
  reflexivity.
Qed.




(** *** Output levels and idempotence *)

(** The [i]-th of the [L] output levels. *)
Definition level_value (L i : Z) : Z := rint (inject_Z i * (255 / inject_Z (L - 1))).

Lemma level_value_range (p : positive) (i : Z) :
  (0 <= i <= Z.pos p)%Z -> (0 <= rint (i * 255 # p) <= 255)%Z.
Proof.
  intros Hi. pose proof (rint_bounds_Z (i * 255) p) as Hb. nia.
Qed.

(** The quantizer always returns one of the [L] levels. *)
Lemma quantize_none1_level (v : Q) (L : Z) :
  (2 <= L)%Z ->
  exists i, (0 <= i <= L - 1)%Z /\ _quantize_none1 v L = level_value L i.
Proof.
  intros HL. unfold _quantize_none1, level_value.
  destruct (L <=? 1)%Z eqn:H1; [apply Z.leb_le in H1; lia|].
  set (i := clip _ 0 (L - 1)).
  assert (Hi : (0 <= i <= L - 1)%Z) by (apply clip_range; lia).
  exists i. split; [exact Hi|].
  destruct (L - 1)%Z as [|p|p] eqn:Hp; try lia.
  rewrite (rint_proper _ _ (level_expr i p)).
  apply clip_id, level_value_range. exact Hi.
Qed.

Lemma quantize_level_fixed (L i : Z) :
  (2 <= L)%Z -> (0 <= i <= L - 1)%Z ->
  _quantize_none1 (inject_Z (level_value L i)) L = level_value L i.
Proof.
  intros HL Hi. unfold _quantize_none1, level_value.
  destruct (L <=? 1)%Z eqn:H1; [apply Z.leb_le in H1; lia|].
  destruct (L - 1)%Z as [|p|p] eqn:Hp; try lia.
  rewrite !(rint_proper _ _ (level_expr _ p)).
  set (v := rint (i * 255 # p)).
  pose proof (level_value_range p i Hi) as Hv. fold v in Hv.
  pose proof (rint_bounds_Z (i * 255) p) as Hb. fold v in Hb.
  rewrite (rint_proper _ _ (index_expr v (Z.pos p))).
  pose proof (rint_bounds_Z (v * Z.pos p) 255) as Hb'.
  set (r := rint (v * Z.pos p # 255)) in *.
  destruct (Z_le_gt_dec (Z.pos p) 255%Z) as [Hsmall|Hbig].
  - assert (Hr : r = i).
    { subst r. apply rint_unique_Z.
      destruct (Z.eq_dec (Z.pos p) 255%Z) as [E|NE].
      - rewrite E in *. assert (v = i) by lia. lia.
      - nia. }
    rewrite Hr, (clip_id i) by lia. fold v. apply clip_id. exact Hv.
  - assert (Hr : (0 <= r <= Z.pos p)%Z) by nia.
    rewrite (clip_id r) by exact Hr.
    assert (Hv' : rint (r * 255 # p) = v) by (apply rint_unique_Z; nia).
    rewrite Hv'. apply clip_id. exact Hv.
Qed.



Local Close Scope Q_scope.

(** ** OrderedDitherEngine: the Bayer matrix *)

Module Bayer.

Definition matrix : Type := list (list Z).

(** [4 * prev] and [a + c] on an integer array. *)
Definition mscale (c : Z) (a : matrix) : matrix := map (map (Z.mul c)) a.
Definition madd (a : matrix) (c : Z) : matrix := map (map (fun v => v + c)) a.

(** [np.block([[tl, tr], [bl, br]])]: blocks of one row of the layout are
    joined column-wise, the rows of the layout are stacked. *)
Definition hstack (l r : matrix) : matrix := zip_with app l r.
Definition block (tl tr bl br : matrix) : matrix := hstack tl tr ++ hstack bl br.

(** The inner [build(k)]; [fuel] bounds the recursion depth. *)
Fixpoint build (fuel : nat) (k : Z) : option matrix :=
  match fuel with
  | O => None
  | S fuel' =>
      if k =? 1 then Some [[0]]
      else
        match build fuel' (k / 2) with
        | None => None
        | Some prev =>
            let a := mscale 4 prev in
            Some (block (madd a 0) (madd a 2) (madd a 3) (madd a 1))
        end
  end.

Definition _bayer_matrix (n : Z) : result matrix :=
  if negb (Z.land n (n - 1) =? 0) || (n <=? 0) then Err ValueError
  else
    match build (S (Z.to_nat (Z.log2 n))) n with
    | None => Err OutOfFuel
    | Some M => Ok M
    end.

(** How often [v] occurs among the entries of [M]. *)
Definition occurrences (M : matrix) (v : Z) : nat :=
  length (filter (fun w => w = v) (concat M)).

Definition each_once_below (M : matrix) (m : Z) : bool :=
  forallb (fun v => Nat.eqb (occurrences M v) 1) (seqZ 0 m).

End Bayer.

Lemma land_pred_zero_pow2 (n : Z) :
  0 < n -> Z.land n (n - 1) = 0 -> n = 2 ^ Z.log2 n.
Proof.
  intros Hn Hland.
  destruct (Z.eq_dec n (2 ^ Z.log2 n)) as [|Hne]; [assumption|exfalso].
  pose proof (Z.log2_spec n Hn) as [Hlo Hhi].
  pose proof (Z.log2_nonneg n) as Hk.
  assert (Hlog : Z.log2 (n - 1) = Z.log2 n).
  { apply Z.log2_unique; [exact Hk|]. rewrite <- Z.add_1_r in Hhi. lia. }
  assert (Hpos : 0 < n - 1).
  { pose proof (Z.pow_pos_nonneg 2 (Z.log2 n) ltac:(lia) Hk). lia. }
  pose proof (Z.bit_log2 n Hn) as Hb1.
  pose proof (Z.bit_log2 (n - 1) Hpos) as Hb2. rewrite Hlog in Hb2.
  assert (Hb : Z.testbit (Z.land n (n - 1)) (Z.log2 n) = true)
    by (rewrite Z.land_spec, Hb1, Hb2; reflexivity).
  rewrite Hland, Z.bits_0 in Hb. discriminate.
Qed.

Lemma bayer_matrix_rejects (n : Z) :
  (forall k, 0 <= k -> n <> 2 ^ k) -> Bayer._bayer_matrix n = Err ValueError.
Proof.
  intros Hnp. unfold Bayer._bayer_matrix.
  destruct (n <=? 0) eqn:Hle; [rewrite orb_true_r; reflexivity|].
  destruct (Z.land n (n - 1) =? 0) eqn:Hland; [|reflexivity].
  apply Z.leb_gt in Hle. apply Z.eqb_eq in Hland.
  exfalso. apply (Hnp (Z.log2 n) (Z.log2_nonneg n)).
  apply land_pred_zero_pow2; assumption.
Qed.

Lemma each_once_below_sound (M : Bayer.matrix) (m : Z) :
  Bayer.each_once_below M m = true ->
  forall v, 0 <= v < m -> Bayer.occurrences M v = 1%nat.
Proof.
  unfold Bayer.each_once_below. intros Hall v Hv.
  rewrite forallb_forall in Hall.
  apply Nat.eqb_eq, Hall, list_elem_of_In, elem_of_seqZ. lia.
Qed.

(** C7. For [n] in {2,4,8}, [_bayer_matrix n] returns an [n] by [n] matrix
    holding every integer of [[0, n^2)] exactly once, assembled from the
    half-size matrix [P] as [4P+0] top-left, [4P+2] top-right, [4P+3]
    bottom-left and [4P+1] bottom-right; for every [n] that is not a power
    of two it fails with [ValueError]. *)
Theorem bayer_matrix_spec :
  (forall n, n = 2 \/ n = 4 \/ n = 8 ->
     exists P M,
       Bayer._bayer_matrix (n / 2) = Ok P
       /\ Bayer._bayer_matrix n = Ok M
       /\ M = Bayer.block (Bayer.madd (Bayer.mscale 4 P) 0) (Bayer.madd (Bayer.mscale 4 P) 2)
                          (Bayer.madd (Bayer.mscale 4 P) 3) (Bayer.madd (Bayer.mscale 4 P) 1)
       /\ Z.of_nat (length M) = n
       /\ Forall (fun row => Z.of_nat (length row) = n) M
       /\ Z.of_nat (length (concat M)) = n * n
       /\ forall v, 0 <= v < n * n -> Bayer.occurrences M v = 1%nat)
  /\ (forall n, (forall k, 0 <= k -> n <> 2 ^ k) ->
        Bayer._bayer_matrix n = Err ValueError).
Proof.
  split; [|exact bayer_matrix_rejects].
  intros n [-> | [-> | ->]].
  - exists [[0]], [[0; 2]; [3; 1]].
    repeat split; try reflexivity.
    + repeat constructor.
    + apply each_once_below_sound. vm_compute. reflexivity.
  - exists [[0; 2]; [3; 1]],
      [[0; 8; 2; 10]; [12; 4; 14; 6]; [3; 11; 1; 9]; [15; 7; 13; 5]].
    repeat split; try reflexivity.
    + repeat constructor.
    + apply each_once_below_sound. vm_compute. reflexivity.
  - destruct (Bayer._bayer_matrix 4) as [P|] eqn:HP; [|discriminate HP].
    destruct (Bayer._bayer_matrix 8) as [M|] eqn:HM; [|discriminate HM].
    exists P, M. change (8 / 2) with 4. rewrite HP.
    vm_compute in HP. vm_compute in HM.
    injection HP as <-. injection HM as <-.
    repeat split; try reflexivity.
    + repeat constructor.
    + apply each_once_below_sound. vm_compute. reflexivity.
Qed.

(** ** Image buffers *)

(** One pixel: the three channels of the last array axis. *)
Record rgb (A : Type) : Type := RGB { chan0 : A; chan1 : A; chan2 : A }.
Arguments RGB {A} _ _ _.
Arguments chan0 {A} _.
Arguments chan1 {A} _.
Arguments chan2 {A} _.

Definition rgb_map {A B} (f : A -> B) (p : rgb A) : rgb B :=
  RGB (f (chan0 p)) (f (chan1 p)) (f (chan2 p)).

Definition rgb_zip {A B C} (f : A -> B -> C) (p : rgb A) (q : rgb B) : rgb C :=
  RGB (f (chan0 p) (chan0 q)) (f (chan1 p) (chan1 q)) (f (chan2 p) (chan2 q)).

Definition rgb_all {A} (P : A -> Prop) (p : rgb A) : Prop :=
  P (chan0 p) /\ P (chan1 p) /\ P (chan2 p).

(** An array of shape (H, W, 3): a list of H rows of W pixels. *)
Definition image (A : Type) : Type := list (list (rgb A)).

Definition img_map {A B} (f : A -> B) (arr : image A) : image B :=
  map (map (rgb_map f)) arr.

(** [arr.shape]: NumPy arrays are rectangular, so W is the length of any
    row (0 for an array without rows). *)
Definition height {A} (arr : image A) : Z := Z.of_nat (length arr).
Definition width {A} (arr : image A) : Z :=
  match arr with
  | [] => 0
  | row :: _ => Z.of_nat (length row)
  end.

(** [arr[y, x]] for indices the source has checked to be in range. *)
Definition get {A} (arr : list (list A)) (y x : Z) : option A :=
  match arr !! Z.to_nat y with
  | Some row => row !! Z.to_nat x
  | None => None
  end.

(** A rectangular H by W buffer. *)
Definition has_shape {A} (arr : list (list A)) (H W : Z) : Prop :=
  Z.of_nat (length arr) = H /\ Forall (fun row => Z.of_nat (length row) = W) arr.

(** A well-formed uint8 image. *)
Definition uint8_image (arr : image Z) : Prop :=
  has_shape arr (height arr) (width arr)
  /\ Forall (Forall (rgb_all (fun v => 0 <= v <= 255))) arr.

(** [_quantize_none(arr, L)] on a whole array. *)
Definition _quantize_none (arr : image Z) (L : Z) : image Z :=
  img_map (fun v => _quantize_none1 (inject_Z v) L) arr.

(** ** Further properties of the quantizer *)

Lemma rint_mono (q q' : Q) : (q <= q')%Q -> rint q <= rint q'.
Proof.
  intros Hle. destruct (Qeq_dec q q') as [Heq|Hne].
  - rewrite (rint_proper _ _ Heq). lia.
  - assert (Hlt : (q < q')%Q) by (apply Qle_lteq in Hle; tauto).
    destruct q as [a p], q' as [b p'].
    pose proof (rint_bounds_Z a p) as Hb. pose proof (rint_bounds_Z b p') as Hb'.
    unfold Qlt in Hlt. cbn [Qnum Qden] in Hlt.
    set (r := rint (a # p)) in *. set (r' := rint (b # p')) in *.
    destruct (Z_le_gt_dec r r') as [?|Hgt]; [assumption|exfalso].
    assert (H1 : (2 * r' + 1) * Z.pos p <= 2 * a) by nia.
    assert (H2 : 2 * b <= (2 * r' + 1) * Z.pos p') by nia.
    assert (H3 : (2 * r' + 1) * Z.pos p * Z.pos p' <= 2 * a * Z.pos p') by nia.
    assert (H4 : 2 * b * Z.pos p <= (2 * r' + 1) * Z.pos p' * Z.pos p) by nia.
    nia.
Qed.

Lemma clip_mono (x x' lo hi : Z) : x <= x' -> clip x lo hi <= clip x' lo hi.
Proof. unfold clip. lia. Qed.



(** For a uint8 sample the inner clip is idle and both roundings are exact
    to half a unit. *)
Lemma quantize_none1_index (v : Z) (p : positive) :
  0 <= v <= 255 ->
  exists i, 0 <= i <= Z.pos p
    /\ 2 * i * 255 - 255 <= 2 * (v * Z.pos p) <= 2 * i * 255 + 255
    /\ _quantize_none1 (inject_Z v) (Z.pos p + 1) = rint (i * 255 # p).
Proof.
  intros Hv. unfold _quantize_none1.
  destruct (Z.pos p + 1 <=? 1) eqn:H1; [apply Z.leb_le in H1; lia|].
  replace (Z.pos p + 1 - 1) with (Z.pos p) by lia.
  rewrite (rint_proper _ _ (index_expr v (Z.pos p))).
  pose proof (rint_bounds_Z (v * Z.pos p) 255) as Hb.
  set (i := rint (v * Z.pos p # 255)) in *.
  assert (Hi : 0 <= i <= Z.pos p) by nia.
  exists i. split; [exact Hi|]. split; [exact Hb|].
  rewrite (clip_id i) by exact Hi.
  rewrite (rint_proper _ _ (level_expr i p)).
  apply clip_id, level_value_range. exact Hi.
Qed.





(** With two levels the quantizer is the threshold between 127 and 128. *)
Lemma quantize_none1_two (v : Z) :
  0 <= v <= 255 ->
  _quantize_none1 (inject_Z v) 2 = if v <=? 127 then 0 else 255.
Proof.
  intros Hv.
  destruct (quantize_none1_index v 1 Hv) as (i & Hi & Hb & Hq).
  change (Z.pos 1 + 1) with 2 in Hq. rewrite Hq.
  destruct (v <=? 127) eqn:Hc; [apply Z.leb_le in Hc | apply Z.leb_gt in Hc].
  - assert (i = 0) by lia. subst i. reflexivity.
  - assert (i = 1) by lia. subst i. reflexivity.
Qed.

(** ** The Bayer matrix of every size *)

Lemma occurrences_app (M1 M2 : Bayer.matrix) (v : Z) :
  Bayer.occurrences (M1 ++ M2) v
  = (Bayer.occurrences M1 v + Bayer.occurrences M2 v)%nat.
Proof.
  unfold Bayer.occurrences. rewrite concat_app, filter_app, length_app. reflexivity.
Qed.

Lemma occurrences_hstack (l r : Bayer.matrix) (v : Z) :
  length l = length r ->
  Bayer.occurrences (Bayer.hstack l r) v
  = (Bayer.occurrences l v + Bayer.occurrences r v)%nat.
Proof.
  unfold Bayer.occurrences, Bayer.hstack.
  revert r. induction l as [|a l IH]; intros [|b r] Hlen; try discriminate.
  - reflexivity.
  - cbn [zip_with concat]. rewrite !filter_app, !length_app.
    rewrite IH by (cbn in Hlen; lia). lia.
Qed.

Lemma affine_div_mod (w c v : Z) :
  0 <= c < 4 -> 4 * w + c = v -> v mod 4 = c /\ v / 4 = w.
Proof.
  intros Hc <-. split.
  - rewrite Z.add_comm, Z.mul_comm, Z.mod_add by lia. apply Z.mod_small; lia.
  - rewrite Z.add_comm, Z.mul_comm, Z.div_add by lia. rewrite Z.div_small by lia. lia.
Qed.

Lemma occurrences_affine (P : Bayer.matrix) (c v : Z) :
  0 <= c < 4 ->
  Bayer.occurrences (Bayer.madd (Bayer.mscale 4 P) c) v
  = if v mod 4 =? c then Bayer.occurrences P (v / 4) else 0%nat.
Proof.
  intros Hc. unfold Bayer.occurrences, Bayer.madd, Bayer.mscale.
  induction P as [|row P IH]; [destruct (v mod 4 =? c); reflexivity|].
  cbn [map concat]. rewrite !filter_app, !length_app, IH.
  assert (Hrow : length (filter (fun w => w = v) (map (fun w => w + c) (map (Z.mul 4) row)))
                 = if v mod 4 =? c then length (filter (fun w => w = v / 4) row) else 0%nat).
  { clear IH. induction row as [|w row IHr]; [destruct (v mod 4 =? c); reflexivity|].
    cbn [map]. rewrite !filter_cons.
    destruct (decide (4 * w + c = v)) as [E|NE].
    - destruct (affine_div_mod w c v Hc E) as [Hm Hd].
      rewrite (proj2 (Z.eqb_eq _ _) Hm) in *.
      destruct (decide (w = v / 4)); [|lia]. cbn [length]. rewrite IHr. reflexivity.
    - destruct (v mod 4 =? c) eqn:Hm.
      + apply Z.eqb_eq in Hm.
        destruct (decide (w = v / 4)) as [E|_]; [|exact IHr].
        exfalso. apply NE. pose proof (Z.div_mod v 4 ltac:(lia)). lia.
      + exact IHr. }
  rewrite Hrow. destruct (v mod 4 =? c); reflexivity.
Qed.

Lemma hstack_shape (l r : Bayer.matrix) (n m : nat) :
  length l = length r ->
  Forall (fun row => length row = n) l -> Forall (fun row => length row = m) r ->
  length (Bayer.hstack l r) = length l
  /\ Forall (fun row => length row = (n + m)%nat) (Bayer.hstack l r).
Proof.
  unfold Bayer.hstack. revert r. induction l as [|a l IH]; intros [|b r] Hlen Hl Hr;
    try discriminate; [split; [reflexivity|constructor]|].
  inversion Hl; subst. inversion Hr; subst.
  destruct (IH r) as [IHlen IHrows]; [cbn in Hlen; lia|assumption..|].
  cbn [zip_with length]. split; [lia|].
  constructor; [rewrite length_app; reflexivity|exact IHrows].
Qed.

Lemma madd_mscale_shape (P : Bayer.matrix) (c : Z) (n : nat) :
  Forall (fun row => length row = n) P ->
  length (Bayer.madd (Bayer.mscale 4 P) c) = length P
  /\ Forall (fun row => length row = n) (Bayer.madd (Bayer.mscale 4 P) c).
Proof.
  intros HP. unfold Bayer.madd, Bayer.mscale. split; [rewrite !length_map; reflexivity|].
  induction HP as [|row P Hrow HP IH]; [constructor|].
  cbn [map]. constructor; [rewrite !length_map; exact Hrow|exact IH].
Qed.

Lemma build_pow2 (k fuel : nat) :
  (k < fuel)%nat ->
  exists M, Bayer.build fuel (2 ^ Z.of_nat k) = Some M
    /\ length M = Nat.pow 2 k
    /\ Forall (fun row => length row = Nat.pow 2 k) M
    /\ forall v, Bayer.occurrences M v
                 = if (0 <=? v) && (v <? 4 ^ Z.of_nat k) then 1%nat else 0%nat.
Proof.
  revert fuel. induction k as [|k IH]; intros [|fuel] Hf; try lia.
  - exists [[0]]. repeat split; [repeat constructor|].
    intros v. unfold Bayer.occurrences. cbn [concat app]. rewrite filter_cons.
    change (4 ^ Z.of_nat 0) with 1.
    destruct (decide (0 = v)) as [<-|NE]; [reflexivity|].
    destruct (0 <=? v) eqn:H0; [|reflexivity].
    destruct (v <? 1) eqn:H1; [|reflexivity]. lia.
  - destruct (IH fuel ltac:(lia)) as (P & HP & Hlen & Hrows & Hocc).
    assert (Hpow : 2 ^ Z.of_nat (S k) = 2 * 2 ^ Z.of_nat k)
      by (rewrite Nat2Z.inj_succ, Z.pow_succ_r by lia; reflexivity).
    assert (Hpos : 0 < 2 ^ Z.of_nat k) by (apply Z.pow_pos_nonneg; lia).
    cbn [Bayer.build].
    destruct (2 ^ Z.of_nat (S k) =? 1) eqn:H1; [apply Z.eqb_eq in H1; lia|].
    replace (2 ^ Z.of_nat (S k) / 2) with (2 ^ Z.of_nat k)
      by (rewrite Hpow, Z.mul_comm, Z.div_mul by lia; reflexivity).
    rewrite HP. eexists. split; [reflexivity|].
    set (a := Bayer.mscale 4 P).
    destruct (madd_mscale_shape P 0 _ Hrows) as [L0 R0].
    destruct (madd_mscale_shape P 1 _ Hrows) as [L1 R1].
    destruct (madd_mscale_shape P 2 _ Hrows) as [L2 R2].
    destruct (madd_mscale_shape P 3 _ Hrows) as [L3 R3].
    fold a in L0, L1, L2, L3, R0, R1, R2, R3.
    destruct (hstack_shape (Bayer.madd a 0) (Bayer.madd a 2) _ _ ltac:(lia) R0 R2)
      as [Ltop Rtop].
    destruct (hstack_shape (Bayer.madd a 3) (Bayer.madd a 1) _ _ ltac:(lia) R3 R1)
      as [Lbot Rbot].
    unfold Bayer.block. repeat split.
    + rewrite length_app, Ltop, Lbot, L0, L3, Hlen. cbn [Nat.pow]. lia.
    + apply Forall_app. split.
      * eapply Forall_impl; [exact Rtop|]. cbn. intros row ->. lia.
      * eapply Forall_impl; [exact Rbot|]. cbn. intros row ->. lia.
    + intros v. rewrite occurrences_app, !occurrences_hstack by lia.
      subst a. rewrite !occurrences_affine by lia. rewrite Hocc.
      assert (H4 : 4 ^ Z.of_nat (S k) = 4 * 4 ^ Z.of_nat k)
        by (rewrite Nat2Z.inj_succ, Z.pow_succ_r by lia; reflexivity).
      rewrite H4.
      pose proof (Z.div_mod v 4 ltac:(lia)) as Hdm.
      pose proof (Z.mod_pos_bound v 4 ltac:(lia)) as Hmb.
      assert (Hb : (0 <=? v / 4) && (v / 4 <? 4 ^ Z.of_nat k)
                   = (0 <=? v) && (v <? 4 * 4 ^ Z.of_nat k)).
      { destruct (0 <=? v) eqn:A; destruct (0 <=? v / 4) eqn:B;
          destruct (v <? 4 * 4 ^ Z.of_nat k) eqn:C;
          destruct (v / 4 <? 4 ^ Z.of_nat k) eqn:D; try reflexivity; lia. }
      rewrite Hb.
      destruct (v mod 4 =? 0) eqn:E0; destruct (v mod 4 =? 2) eqn:E2;
        destruct (v mod 4 =? 3) eqn:E3; destruct (v mod 4 =? 1) eqn:E1;
        try lia; destruct ((0 <=? v) && (v <? 4 * 4 ^ Z.of_nat k)); reflexivity.
Qed.

Lemma land_pow2_pred (k : Z) : 0 <= k -> Z.land (2 ^ k) (2 ^ k - 1) = 0.
Proof.
  intros Hk. rewrite Z.sub_1_r, <- Z.ones_equiv, Z.land_ones by exact Hk.
  apply Z.mod_same. pose proof (Z.pow_pos_nonneg 2 k ltac:(lia) Hk). lia.
Qed.

Lemma bayer_matrix_pow2 (k : Z) :
  0 <= k ->
  exists M, Bayer._bayer_matrix (2 ^ k) = Ok M
    /\ Z.of_nat (length M) = 2 ^ k
    /\ Forall (fun row => Z.of_nat (length row) = 2 ^ k) M
    /\ forall v, Bayer.occurrences M v
                 = if (0 <=? v) && (v <? 2 ^ k * 2 ^ k) then 1%nat else 0%nat.
Proof.
  intros Hk. unfold Bayer._bayer_matrix.
  pose proof (Z.pow_pos_nonneg 2 k ltac:(lia) Hk) as Hpos.
  rewrite land_pow2_pred by exact Hk. cbn [Z.eqb negb orb].
  destruct (2 ^ k <=? 0) eqn:Hle; [apply Z.leb_le in Hle; lia|].
  rewrite Z.log2_pow2 by exact Hk.
  destruct (build_pow2 (Z.to_nat k) (S (Z.to_nat k)) ltac:(lia))
    as (M & HM & Hlen & Hrows & Hocc).
  rewrite Z2Nat.id in HM, Hocc by exact Hk. rewrite HM.
  assert (Hnat : Z.of_nat (Nat.pow 2 (Z.to_nat k)) = 2 ^ k).
  { rewrite Nat2Z.inj_pow, Z2Nat.id by exact Hk. reflexivity. }
  exists M. repeat split.
  - rewrite Hlen. exact Hnat.
  - eapply Forall_impl; [exact Hrows|]. cbn. intros row ->. exact Hnat.
  - intros v. rewrite Hocc.
    replace (2 ^ k * 2 ^ k) with (4 ^ k); [reflexivity|].
    change 4 with (2 * 2). rewrite Z.pow_mul_l. reflexivity.
Qed.



(** ** OrderedDitherEngine: [dither_bayer] *)

(** [np.tile(T, (ty, tx))]: every row repeated [tx] times side by side, the
    rows so widened repeated [ty] times. *)
Definition tile {A} (T : list (list A)) (ty tx : Z) : list (list A) :=
  concat (replicate (Z.to_nat ty)
            (map (fun row => concat (replicate (Z.to_nat tx) row)) T)).

(** One channel of one pixel in the loop of [dither_bayer], with threshold
    [t]: [step = 255.0 / (L - 1)], [v_bias = v + thresh * step],
    [q = np.floor((v_bias / 255.0) * L).clip(0, L - 1)],
    [np.rint(q * step).clip(0, 255)]. *)
Definition bayer1 (L : Z) (v : Z) (t : Q) : Z :=
  let step := (255 / inject_Z (L - 1))%Q in
  let v_bias := (inject_Z v + t * step)%Q in
  let q := clip (Qfloor (v_bias / 255 * inject_Z L)%Q) 0 (L - 1) in
  clip (rint (inject_Z q * step)%Q) 0 255.

(** [T = M / n2 - 0.5] on one entry. *)
Definition threshold (size m : Z) : Q :=
  (inject_Z m / inject_Z (size * size) - (1 # 2))%Q.

(** [dither_bayer(arr, L, size)].  The second test on [L] is in the source
    as well; it can no longer hold once [L < 2] has returned. *)
Definition dither_bayer (arr : image Z) (L size : Z) : result (image Z) :=
  if L <? 2 then Ok (_quantize_none arr 2)
  else
    let H := height arr in
    let W := width arr in
    match Bayer._bayer_matrix size with
    | Err e => Err e
    | Ok M =>
        let T := map (map (threshold size)) M in
        let ty := (H + size - 1) / size in
        let tx := (W + size - 1) / size in
        let thresh := map (take (Z.to_nat W)) (take (Z.to_nat H) (tile T ty tx)) in
        if L =? 1 then Ok (img_map (fun _ => 0) arr)
        else
          Ok (zip_with
                (zip_with (fun p t => rgb_map (fun v => bayer1 L v t) p))
                arr thresh)
    end.

(** *** The tiled threshold map *)

Lemma length_concat_replicate {A} (l : list A) (k : nat) :
  length (concat (replicate k l)) = (k * length l)%nat.
Proof.
  induction k as [|k IH]; [reflexivity|].
  cbn [replicate concat]. rewrite length_app, IH. lia.
Qed.

Lemma lookup_concat_replicate {A} (l : list A) (k i : nat) :
  (i < k * length l)%nat ->
  concat (replicate k l) !! i = l !! (i mod length l)%nat.
Proof.
  revert i. induction k as [|k IH]; intros i Hi; [lia|].
  cbn [replicate concat].
  destruct (Nat.lt_ge_cases i (length l)) as [Hlt|Hge].
  - rewrite lookup_app_l by exact Hlt. rewrite Nat.mod_small by exact Hlt. reflexivity.
  - rewrite lookup_app_r by exact Hge. rewrite IH by lia.
    replace i with ((i - length l) + 1 * length l)%nat at 2 by lia.
    rewrite Nat.Div0.mod_add. reflexivity.
Qed.

(** Row [y < H] of [np.tile(T, (ty, tx))[:H, :W]] is row [y mod n] of [T],
    repeated and cut to [W] entries. *)
Lemma lookup_tile_row {A} (T : list (list A)) (n ty tx H W y : nat) :
  length T = n -> Forall (fun row => length row = n) T ->
  (H <= ty * n)%nat -> (W <= tx * n)%nat -> (y < H)%nat ->
  exists row,
    T !! (y mod n)%nat = Some row /\ length row = n
    /\ map (take W) (take H (concat (replicate ty
          (map (fun row => concat (replicate tx row)) T)))) !! y
       = Some (take W (concat (replicate tx row)))
    /\ length (take W (concat (replicate tx row))) = W.
Proof.
  intros Hn Hrows HH HW Hy.
  assert (Hn0 : (0 < n)%nat) by (destruct n; [lia|lia]).
  assert (Hym : (y mod n < length T)%nat)
    by (rewrite Hn; apply Nat.mod_upper_bound; lia).
  destruct (lookup_lt_is_Some_2 T _ Hym) as [row Hrow].
  assert (Hlr : length row = n)
    by (exact (proj1 (Forall_lookup _ _) Hrows _ _ Hrow)).
  exists row. split; [exact Hrow|]. split; [exact Hlr|]. split.
  - change (map (take W)) with (fmap (M:=list) (take (A:=A) W)).
    rewrite list_lookup_fmap, lookup_take_lt by exact Hy.
    rewrite lookup_concat_replicate by (rewrite length_map, Hn; lia).
    rewrite length_map, Hn.
    change (map (fun row0 => concat (replicate tx row0)) T)
      with (fmap (M:=list) (fun row0 : list A => concat (replicate tx row0)) T).
    rewrite list_lookup_fmap, Hrow. reflexivity.
  - rewrite length_take, length_concat_replicate, Hlr. lia.
Qed.

Lemma lookup_tile_col {A} (row : list A) (n tx W x : nat) :
  length row = n -> (W <= tx * n)%nat -> (x < W)%nat ->
  take W (concat (replicate tx row)) !! x = row !! (x mod n)%nat.
Proof.
  intros Hlr HW Hx.
  rewrite lookup_take_lt by exact Hx.
  rewrite lookup_concat_replicate by (rewrite Hlr; lia).
  rewrite Hlr. reflexivity.
Qed.

Lemma length_tile_slice {A} (T : list (list A)) (n ty tx H W : nat) :
  length T = n -> (H <= ty * n)%nat ->
  length (map (take W) (take H (concat (replicate ty
            (map (fun row => concat (replicate tx row)) T))))) = H.
Proof.
  intros Hn HH.
  rewrite length_map, length_take, length_concat_replicate, length_map, Hn. lia.
Qed.

(** [ty = (H + size - 1) // size] tiles cover [H] rows. *)
Lemma tiles_cover (H size : Z) :
  0 <= H -> 0 < size ->
  (Z.to_nat H <= Z.to_nat ((H + size - 1) / size) * Z.to_nat size)%nat.
Proof.
  intros HH Hs.
  pose proof (Z.div_mod (H + size - 1) size ltac:(lia)) as Hdm.
  pose proof (Z.mod_pos_bound (H + size - 1) size Hs) as Hmb.
  assert (0 <= (H + size - 1) / size) by (apply Z.div_pos; lia).
  rewrite <- Z2Nat.inj_mul by lia. apply Z2Nat.inj_le; nia.
Qed.

(** *** [dither_bayer] pixel by pixel *)

(** Pixel [(y, x)] of the zipped output, over a threshold matrix [T] of
    size [n]. *)
Lemma lookup_bayer_zip {A B} (f : A -> Q -> B) (arr : list (list A))
    (T : list (list Q)) (n ty tx W y x : nat) (p : A) (arow : list A) :
  length T = n -> Forall (fun row => length row = n) T ->
  (length arr <= ty * n)%nat -> (W <= tx * n)%nat ->
  arr !! y = Some arow -> length arow = W -> arow !! x = Some p ->
  exists row t,
    T !! (y mod n)%nat = Some row /\ row !! (x mod n)%nat = Some t
    /\ zip_with (zip_with f) arr
         (map (take W) (take (length arr) (concat (replicate ty
            (map (fun row => concat (replicate tx row)) T))))) !! y
       ≫= (fun r => r !! x) = Some (f p t).
Proof.
  intros Hn Hrows HH HW Harow Hlen Hp.
  assert (Hy : (y < length arr)%nat) by (apply lookup_lt_is_Some; eauto).
  assert (Hx : (x < W)%nat) by (rewrite <- Hlen; apply lookup_lt_is_Some; eauto).
  destruct (lookup_tile_row T n ty tx (length arr) W y Hn Hrows HH HW Hy)
    as (row & Hrow & Hlr & Hth & _).
  assert (Hn0 : (0 < n)%nat) by (destruct n; lia).
  assert (Hxm : (x mod n < length row)%nat)
    by (rewrite Hlr; apply Nat.mod_upper_bound; lia).
  destruct (lookup_lt_is_Some_2 row _ Hxm) as [t Ht].
  exists row, t. split; [exact Hrow|]. split; [exact Ht|].
  rewrite lookup_zip_with, Harow. cbn [mbind option_bind].
  rewrite Hth. cbn [mbind option_bind].
  rewrite lookup_zip_with, Hp. cbn [mbind option_bind].
  rewrite (lookup_tile_col row n tx W x Hlr HW Hx), Ht. reflexivity.
Qed.

Lemma get_Some {A} (arr : list (list A)) (y x : Z) (p : A) :
  get arr y x = Some p <->
  exists row, arr !! Z.to_nat y = Some row /\ row !! Z.to_nat x = Some p.
Proof.
  unfold get. destruct (arr !! Z.to_nat y) as [row|].
  - split; [intros Hp; exists row; auto|]. intros (row' & E & Hp). congruence.
  - split; [discriminate|]. intros (row' & E & _). discriminate.
Qed.

(** In a rectangular array every row has the width of the first. *)
Lemma has_shape_row {A} (arr : image A) (row : list (rgb A)) (y : nat) :
  has_shape arr (height arr) (width arr) -> arr !! y = Some row ->
  length row = Z.to_nat (width arr).
Proof.
  intros [_ Hrows] Hrow.
  pose proof (proj1 (Forall_lookup _ _) Hrows _ _ Hrow) as H. cbn in H. lia.
Qed.

(** The threshold matrix of a valid size, with the facts the tiling needs. *)
Lemma bayer_thresholds (arr : image Z) (k : Z) :
  0 <= k ->
  exists M,
    Bayer._bayer_matrix (2 ^ k) = Ok M
    /\ length (map (map (threshold (2 ^ k))) M) = Z.to_nat (2 ^ k)
    /\ Forall (fun row => length row = Z.to_nat (2 ^ k))
         (map (map (threshold (2 ^ k))) M)
    /\ (length arr
        <= Z.to_nat ((height arr + 2 ^ k - 1) / 2 ^ k) * Z.to_nat (2 ^ k))%nat
    /\ (Z.to_nat (width arr)
        <= Z.to_nat ((width arr + 2 ^ k - 1) / 2 ^ k) * Z.to_nat (2 ^ k))%nat.
Proof.
  intros Hk.
  pose proof (Z.pow_pos_nonneg 2 k ltac:(lia) Hk) as Hpos.
  destruct (bayer_matrix_pow2 k Hk) as (M & HM & Hlen & Hrows & _).
  exists M. split; [exact HM|]. split; [rewrite length_map; lia|]. split; [|split].
  - apply Forall_map. eapply Forall_impl; [exact Hrows|].
    cbn. intros row Hr. rewrite length_map. lia.
  - pose proof (tiles_cover (height arr) (2 ^ k) ltac:(unfold height; lia) Hpos) as Hc.
    unfold height in *. rewrite Nat2Z.id in Hc. exact Hc.
  - apply tiles_cover; [|exact Hpos]. unfold width. destruct arr; lia.
Qed.



(** Membership in the grid of [L] levels. *)
Definition is_level (L v : Z) : Prop :=
  exists i, 0 <= i <= L - 1 /\ v = level_value L i.

Lemma bayer1_level (L v : Z) (t : Q) : 2 <= L -> is_level L (bayer1 L v t).
Proof.
  intros HL. unfold bayer1, is_level, level_value.
  set (i := clip _ 0 (L - 1)).
  assert (Hi : 0 <= i <= L - 1) by (apply clip_range; lia).
  exists i. split; [exact Hi|].
  destruct (L - 1) as [|p|p] eqn:Hp; try lia.
  rewrite (rint_proper _ _ (level_expr i p)).
  apply clip_id, level_value_range. exact Hi.
Qed.

Lemma bayer_levels_pow2 (arr : image Z) (L k : Z) :
  2 <= L -> 0 <= k -> has_shape arr (height arr) (width arr) ->
  exists out,
    dither_bayer arr L (2 ^ k) = Ok out
    /\ has_shape out (height arr) (width arr)
    /\ Forall (Forall (rgb_all (is_level L))) out.
Proof.
  intros HL Hk Hshape.
  destruct (bayer_thresholds arr k Hk) as (M & HM & HTlen & HTrows & HcH & HcW).
  unfold dither_bayer.
  destruct (L <? 2) eqn:H2; [apply Z.ltb_lt in H2; lia|].
  destruct (L =? 1) eqn:H1; [apply Z.eqb_eq in H1; lia|].
  rewrite HM. eexists. split; [reflexivity|].
  unfold tile.
  replace (Z.to_nat (height arr)) with (length arr) by (unfold height; lia).
  set (f := fun (p : rgb Z) (t : Q) => rgb_map (fun v => bayer1 L v t) p).
  assert (Hrow : forall y r,
    zip_with (zip_with f) arr
      (map (take (Z.to_nat (width arr))) (take (length arr) (concat
         (replicate (Z.to_nat ((height arr + 2 ^ k - 1) / 2 ^ k))
            (map (fun row => concat
                    (replicate (Z.to_nat ((width arr + 2 ^ k - 1) / 2 ^ k)) row))
               (map (map (threshold (2 ^ k))) M)))))) !! y = Some r ->
    Z.of_nat (length r) = width arr /\ Forall (rgb_all (is_level L)) r).
  { intros y r Hr. apply lookup_zip_with_Some in Hr.
    destruct Hr as (arow & trow & -> & Harow & Htrow).
    assert (Hy : (y < length arr)%nat) by (apply lookup_lt_is_Some; eauto).
    destruct (lookup_tile_row _ _ _ _ (length arr) (Z.to_nat (width arr)) y
                HTlen HTrows HcH HcW Hy) as (row & _ & _ & Hth & Hlt).
    rewrite Hth in Htrow. injection Htrow as <-.
    pose proof (has_shape_row arr arow _ Hshape Harow) as Hla.
    split.
    - rewrite length_zip_with, Hla, Hlt.
      assert (0 <= width arr) by (unfold width; destruct arr; lia). lia.
    - apply Forall_lookup. intros x q Hq. apply lookup_zip_with_Some in Hq.
      destruct Hq as (p & t & -> & _ & _).
      unfold f, rgb_all, rgb_map. cbn [chan0 chan1 chan2].
      repeat split; apply bayer1_level; exact HL. }
  split; [split|].
  - rewrite length_zip_with, length_tile_slice with (n := Z.to_nat (2 ^ k)); [unfold height; lia|exact HTlen|exact HcH].
  - apply Forall_lookup. intros y r Hr. exact (proj1 (Hrow y r Hr)).
  - apply Forall_lookup. intros y r Hr. exact (proj2 (Hrow y r Hr)).
Qed.



Lemma img_map_ext {A B} (P : A -> Prop) (f g : A -> B) (arr : image A) :
  (forall v, P v -> f v = g v) ->
  Forall (Forall (rgb_all P)) arr -> img_map f arr = img_map g arr.
Proof.
  intros Hfg Harr. unfold img_map.
  induction Harr as [|row arr Hrow _ IH]; [reflexivity|].
  cbn [map]. f_equal; [|exact IH].
  induction Hrow as [|p row Hp _ IHr]; [reflexivity|].
  cbn [map]. f_equal; [|exact IHr].
  destruct p as [a b c], Hp as (Ha & Hb & Hc). cbn in Ha, Hb, Hc.
  unfold rgb_map. cbn [chan0 chan1 chan2]. rewrite !Hfg by assumption. reflexivity.
Qed.

(** Below two levels [dither_bayer] neither fails nor blanks the image: for
    every [L < 2] and every [size], valid or not, it returns the two-level
    quantization, 0 for samples up to 127 and 255 from 128 on. *)
Theorem dither_bayer_below_two (arr : image Z) (L size : Z) :
  L < 2 -> uint8_image arr ->
  dither_bayer arr L size
  = Ok (img_map (fun v => if v <=? 127 then 0 else 255) arr).
Proof.
  intros HL [_ Hrange]. unfold dither_bayer.
  destruct (L <? 2) eqn:H2; [|apply Z.ltb_ge in H2; lia].
  f_equal. unfold _quantize_none.
  apply img_map_ext with (P := fun v => 0 <= v <= 255); [|exact Hrange].
  intros v Hv. apply quantize_none1_two. exact Hv.
Qed.

Lemma dither_bayer_below_two_witness :
  dither_bayer [[RGB 255 128 127]] 1 3
  = Ok (img_map (fun v => if v <=? 127 then 0 else 255) [[RGB 255 128 127]]).
Proof.
  apply dither_bayer_below_two; [lia|].
  split; [split; [reflexivity|repeat constructor]|].
  repeat constructor; cbn; lia.
Defined.

(** With [L >= 2], a size that is not a power of two is rejected with
    [ValueError], whatever the image. *)
Theorem dither_bayer_bad_size (arr : image Z) (L size : Z) :
  2 <= L -> (forall k, 0 <= k -> size <> 2 ^ k) ->
  dither_bayer arr L size = Err ValueError.
Proof.
  intros HL Hsize. unfold dither_bayer.
  destruct (L <? 2) eqn:H2; [apply Z.ltb_lt in H2; lia|].
  rewrite (bayer_matrix_rejects size Hsize). reflexivity.
Qed.

Lemma pow2_not_3 (k : Z) : 0 <= k -> 3 <> 2 ^ k.
Proof.
  intros Hk E.
  destruct (Z.eq_dec k 0) as [->|]; [discriminate E|].
  destruct (Z.eq_dec k 1) as [->|]; [discriminate E|].
  assert (H : 2 ^ 2 <= 2 ^ k) by (apply Z.pow_le_mono_r; lia).
  change (2 ^ 2) with 4 in H. lia.
Qed.

Lemma dither_bayer_bad_size_witness :
  dither_bayer [[RGB 1 2 3]] 2 3 = Err ValueError.
Proof. apply dither_bayer_bad_size; [lia|exact pow2_not_3]. Defined.

(** ** ErrorDiffusionEngine: the work buffer *)

(** The float work buffer.  A float is a canonical rational here, so that
    equal numbers are equal terms. *)
Definition buffer : Type := image Qc.

Definition of_int (z : Z) : Qc := Q2Qc (inject_Z z).

(** [work = arr.astype(np.float32).copy()]. *)
Definition to_float (arr : image Z) : buffer := img_map of_int arr.

(** [np.clip(np.rint(work), 0, 255).astype(np.uint8)]. *)
Definition finish (work : buffer) : image Z :=
  img_map (fun v => clip (rint (this v)) 0 255) work.

(** An in-place update of [work[y, x]].  Every caller has checked
    [0 <= y < H] and [0 <= x < W] before. *)
Definition upd (f : rgb Qc -> rgb Qc) (work : buffer) (y x : Z) : buffer :=
  alter (M := list (list (rgb Qc))) (alter f (Z.to_nat x)) (Z.to_nat y) work.

(** [work[y, x] += err * w], on the three channels. *)
Definition add_at (work : buffer) (y x : Z) (err : rgb Qc) (w : Q) : buffer :=
  upd (fun p => rgb_zip (fun c e => Qcplus c (Qcmult e (Q2Qc w))) p err) work y x.

(** [work[y, x] = new]. *)
Definition set_at (work : buffer) (y x : Z) (new : rgb Qc) : buffer :=
  upd (fun _ => new) work y x.

(** The guard [0 <= x < W]. *)
Definition in_width (W x : Z) : bool := (0 <=? x) && (x <? W).

(** ** Loops *)

(** A [for] loop whose body may raise: the first error ends it. *)
Definition for_each {A S} (xs : list A) (s : S) (body : A -> S -> result S) :
    result S :=
  foldl (fun acc x => match acc with Ok s => body x s | Err e => Err e end)
        (Ok s) xs.

(** Python's [range(start, stop, step)] for a non-zero [step]. *)
Definition py_range (start stop step : Z) : list Z :=
  let n := if 0 <? step then (stop - start + step - 1) / step
           else (start - stop - step - 1) / (- step) in
  (fun i => start + step * i) <$> seqZ 0 n.

(** [x = start; while x != stop: body; x += step_dir]. *)
Fixpoint while_ne (fuel : nat) (x stop step_dir : Z)
    (body : Z -> buffer -> buffer) (work : buffer) : option buffer :=
  if x =? stop then Some work
  else
    match fuel with
    | O => None
    | S fuel' => while_ne fuel' (x + step_dir) stop step_dir body (body x work)
    end.

(** ** Quantizing one pixel *)

(** One channel in the compiled loops: [q = round(old * (L - 1) / 255.0)],
    the [if q < 0 ... elif q > L - 1 ...] clamp, [new = round(q * step)]
    with [step = 255.0 / (L - 1)]. *)
Definition quantize_scalar (L : Z) (old : Qc) : Z :=
  let q := rint (this old * inject_Z (L - 1) / 255) in
  let q := if q <? 0 then 0 else if q >? L - 1 then L - 1 else q in
  rint (inject_Z q * (255 / inject_Z (L - 1))).

(** [_quantize_levels(pixel, L)] on the three channels of a pixel. *)
Definition _quantize_levels (pixel : rgb Qc) (L : Z) : result (rgb Qc) :=
  match _quantize_levels1 (this (chan0 pixel)) L,
        _quantize_levels1 (this (chan1 pixel)) L,
        _quantize_levels1 (this (chan2 pixel)) L with
  | Ok a, Ok b, Ok c => Ok (RGB (Q2Qc a) (Q2Qc b) (Q2Qc c))
  | Err e, _, _ => Err e
  | _, Err e, _ => Err e
  | _, _, Err e => Err e
  end.

(** ** The kernels

    Each takes the image size, the pixel, the scan direction and the error
    and performs the guarded additions in the order of the source.  The
    compiled loop and the interpreted loop of a module add the same
    weights to the same neighbours. *)

Definition floyd_kernel (H W y x dir : Z) (err : rgb Qc) (work : buffer) : buffer :=
  let xn1 := x + dir in
  let work := if in_width W xn1 then add_at work y xn1 err (7 # 16) else work in
  if y + 1 <? H then
    let xp1 := x - dir in
    let work := if in_width W xp1 then add_at work (y + 1) xp1 err (3 # 16) else work in
    let work := add_at work (y + 1) x err (5 # 16) in
    if in_width W xn1 then add_at work (y + 1) xn1 err (1 # 16) else work
  else work.

Definition atkinson_kernel (H W y x dir : Z) (err : rgb Qc) (work : buffer) : buffer :=
  let xn1 := x + dir in
  let work := if in_width W xn1 then add_at work y xn1 err (1 # 8) else work in
  let xn2 := x + 2 * dir in
  let work := if in_width W xn2 then add_at work y xn2 err (1 # 8) else work in
  let work :=
    if y + 1 <? H then
      let xp1 := x - dir in
      let work := if in_width W xp1 then add_at work (y + 1) xp1 err (1 # 8) else work in
      let work := add_at work (y + 1) x err (1 # 8) in
      if in_width W xn1 then add_at work (y + 1) xn1 err (1 # 8) else work
    else work in
  if y + 2 <? H then add_at work (y + 2) x err (1 # 8) else work.

Definition sierra_kernel (H W y x dir : Z) (err : rgb Qc) (work : buffer) : buffer :=
  let xn1 := x + dir in
  let xn2 := x + 2 * dir in
  let work := if in_width W xn1 then add_at work y xn1 err (5 # 32) else work in
  let work := if in_width W xn2 then add_at work y xn2 err (3 # 32) else work in
  let work :=
    if y + 1 <? H then
      let xp2 := x - 2 * dir in
      let xp1 := x - dir in
      let work := if in_width W xp2 then add_at work (y + 1) xp2 err (2 # 32) else work in
      let work := if in_width W xp1 then add_at work (y + 1) xp1 err (4 # 32) else work in
      let work := add_at work (y + 1) x err (5 # 32) in
      let work := if in_width W xn1 then add_at work (y + 1) xn1 err (4 # 32) else work in
      if in_width W xn2 then add_at work (y + 1) xn2 err (2 # 32) else work
    else work in
  if y + 2 <? H then
    let xp1 := x - dir in
    let work := if in_width W xp1 then add_at work (y + 2) xp1 err (2 # 32) else work in
    let work := add_at work (y + 2) x err (3 # 32) in
    if in_width W xn1 then add_at work (y + 2) xn1 err (2 # 32) else work
  else work.

(** ** One pixel of the scan *)

Definition kernel : Type := Z -> Z -> Z -> Z -> Z -> rgb Qc -> buffer -> buffer.

(** The body of the compiled loop ([_floyd_impl], [_atk_impl],
    [_sierra_impl]): [old] holds the three scalars read before the store.
    NumPy arrays are rectangular, so the read at a scanned index always
    succeeds; a ragged list is left as it is. *)
Definition numba_pixel (k : kernel) (H W L y x dir : Z) (work : buffer) : buffer :=
  match get work y x with
  | None => work
  | Some old =>
      let new := rgb_map (fun o => of_int (quantize_scalar L o)) old in
      let work := set_at work y x new in
      let err := rgb_zip Qcminus old new in
      k H W y x dir err work
  end.

(** The body of the interpreted loop.  [old = work[y, x]] is a view of the
    buffer, not a copy: after [work[y, x] = new] it reads the stored
    pixel, and [err = old - new] is computed from that. *)
Definition fallback_pixel (k : kernel) (H W L y x dir : Z) (work : buffer) :
    result buffer :=
  match get work y x with
  | None => Ok work
  | Some old_view =>
      match _quantize_levels old_view L with
      | Err e => Err e
      | Ok new =>
          let work := set_at work y x new in
          match get work y x with
          | None => Ok work
          | Some old =>
              let err := rgb_zip Qcminus old new in
              Ok (k H W y x dir err work)
          end
      end
  end.

(** ** The two scans *)

(** The compiled scan; [step = 255.0 / (L - 1)] is computed first. *)
Definition numba_impl (k : kernel) (work : buffer) (L : Z) (serpentine : bool) :
    result buffer :=
  let H := height work in
  let W := width work in
  if L - 1 =? 0 then Err ZeroDivisionError
  else
    for_each (seqZ 0 H) work (fun y work =>
      let '(start, stop, step_dir) :=
        if serpentine && (y mod 2 =? 1) then (W - 1, -1, -1) else (0, W, 1) in
      match while_ne (Z.to_nat W) start stop step_dir
              (fun x => numba_pixel k H W L y x step_dir) work with
      | None => Err OutOfFuel
      | Some work => Ok work
      end).

(** The interpreted scan. *)
Definition fallback_loop (k : kernel) (work : buffer) (L : Z) (serpentine : bool) :
    result buffer :=
  let H := height work in
  let W := width work in
  for_each (seqZ 0 H) work (fun y work =>
    let '(x_range, dir_sign) :=
      if serpentine && (y mod 2 =? 1) then (py_range (W - 1) (-1) (-1), -1)
      else (py_range 0 W 1, 1) in
    for_each x_range work (fun x work => fallback_pixel k H W L y x dir_sign work)).

(** [dither_floyd], [dither_atkinson], [dither_sierra]: [has_numba] tells
    whether the import of Numba succeeded. *)
Definition diffuse (k : kernel) (has_numba : bool) (arr : image Z) (L : Z)
    (serpentine : bool) : result (image Z) :=
  let work := to_float arr in
  match (if has_numba then numba_impl k work L serpentine
         else fallback_loop k work L serpentine) with
  | Err e => Err e
  | Ok work => Ok (finish work)
  end.

Definition dither_floyd := diffuse floyd_kernel.
Definition dither_atkinson := diffuse atkinson_kernel.
Definition dither_sierra := diffuse sierra_kernel.

(** ** Reading and updating the buffer *)

Lemma upd_shape {f} (work : list (list (rgb Qc))) (H W y x : Z) :
  has_shape work H W -> has_shape (upd f work y x) H W.
Proof.
  intros [Hlen Hrows]. unfold upd. split; [rewrite length_alter; exact Hlen|].
  apply Forall_lookup. intros i row Hi.
  rewrite list_lookup_alter in Hi.
  destruct (decide (Z.to_nat y = i)) as [<-|_].
  - destruct (work !! Z.to_nat y) as [r|] eqn:Hr; cbn in Hi; [|discriminate Hi].
    injection Hi as <-. rewrite length_alter.
    exact (proj1 (Forall_lookup _ _) Hrows _ _ Hr).
  - exact (proj1 (Forall_lookup _ _) Hrows _ _ Hi).
Qed.

Lemma get_upd_eq {f} (work : list (list (rgb Qc))) (y x : Z) (p : rgb Qc) :
  get work y x = Some p -> get (upd f work y x) y x = Some (f p).
Proof.
  intros Hp. apply get_Some in Hp. destruct Hp as (row & Hrow & Hp).
  apply get_Some. exists (alter f (Z.to_nat x) row). unfold upd. split.
  - rewrite list_lookup_alter, decide_True by reflexivity. rewrite Hrow. reflexivity.
  - rewrite list_lookup_alter, decide_True by reflexivity. rewrite Hp. reflexivity.
Qed.

Lemma get_upd_ne {f} (work : list (list (rgb Qc))) (y x y' x' : Z) :
  0 <= y -> 0 <= x -> 0 <= y' -> 0 <= x' -> (y <> y' \/ x <> x') ->
  get (upd f work y x) y' x' = get work y' x'.
Proof.
  intros Hy Hx Hy' Hx' Hne. unfold get, upd.
  rewrite list_lookup_alter.
  destruct (decide (Z.to_nat y = Z.to_nat y')) as [E|NE]; [|reflexivity].
  rewrite E. destruct (work !! Z.to_nat y') as [row|]; [|reflexivity].
  cbn. apply list_lookup_alter_ne. lia.
Qed.

Lemma get_in_range {A} (arr : list (list A)) (H W y x : Z) :
  has_shape arr H W -> 0 <= y < H -> 0 <= x < W -> is_Some (get arr y x).
Proof.
  intros [Hlen Hrows] Hy Hx. unfold get.
  destruct (lookup_lt_is_Some_2 arr (Z.to_nat y) ltac:(lia)) as [row Hrow].
  rewrite Hrow. apply lookup_lt_is_Some_2.
  pose proof (proj1 (Forall_lookup _ _) Hrows _ _ Hrow) as Hl. cbn in Hl. lia.
Qed.

(** Rewriting a cell with a function that fixes its value changes nothing. *)
Lemma upd_fixed {f} (work : list (list (rgb Qc))) (y x : Z) :
  (forall p, get work y x = Some p -> f p = p) -> upd f work y x = work.
Proof.
  intros Hf. unfold upd. apply list_eq. intros i.
  rewrite list_lookup_alter.
  destruct (decide (Z.to_nat y = i)) as [<-|_]; [|reflexivity].
  destruct (work !! Z.to_nat y) as [row|] eqn:Hrow; [|reflexivity].
  cbn. f_equal. apply list_eq. intros j.
  rewrite list_lookup_alter.
  destruct (decide (Z.to_nat x = j)) as [<-|_]; [|reflexivity].
  destruct (row !! Z.to_nat x) as [p|] eqn:Hp; [|reflexivity].
  cbn. f_equal. apply Hf. apply get_Some. exists row. split; assumption.
Qed.

(** Two functions that agree on the value of the cell update alike. *)
Lemma upd_ext {f g} (work : list (list (rgb Qc))) (y x : Z) :
  (forall p, get work y x = Some p -> f p = g p) -> upd f work y x = upd g work y x.
Proof.
  intros Hfg. unfold upd. apply list_eq. intros i.
  rewrite !list_lookup_alter.
  destruct (decide (Z.to_nat y = i)) as [<-|_]; [|reflexivity].
  destruct (work !! Z.to_nat y) as [row|] eqn:Hrow; [|reflexivity].
  cbn. f_equal. apply list_eq. intros j.
  rewrite !list_lookup_alter.
  destruct (decide (Z.to_nat x = j)) as [<-|_]; [|reflexivity].
  destruct (row !! Z.to_nat x) as [p|] eqn:Hp; [|reflexivity].
  cbn. f_equal. apply Hfg. apply get_Some. exists row. split; assumption.
Qed.

(** Adding a zero error changes nothing. *)
Lemma add_at_zero (work : list (list (rgb Qc))) (y x : Z) (w : Q) :
  add_at work y x (RGB (Q2Qc 0) (Q2Qc 0) (Q2Qc 0)) w = work.
Proof.
  unfold add_at. apply upd_fixed. intros [a b c] _.
  unfold rgb_zip. cbn [chan0 chan1 chan2]. f_equal; ring.
Qed.

(** ** The loops as folds *)

(** The [x]-positions of one row in scan order: [start + dir * i]. *)
Definition xs_of (W : Z) (rev : bool) : list Z :=
  (fun i => (if rev then W - 1 else 0) + (if rev then -1 else 1) * i) <$> seqZ 0 W.

Lemma affine_seqZ_cons (x0 dir : Z) (n : nat) :
  (fun i => x0 + dir * i) <$> seqZ 0 (Z.of_nat (S n))
  = x0 :: ((fun i => (x0 + dir) + dir * i) <$> seqZ 0 (Z.of_nat n)).
Proof.
  rewrite seqZ_cons by lia. cbn [fmap list_fmap]. f_equal; [lia|].
  replace (Z.pred (Z.of_nat (S n))) with (Z.of_nat n) by lia.
  change (Z.succ 0) with (1 + 0). rewrite <- fmap_add_seqZ, <- list_fmap_compose.
  apply list_fmap_ext. intros _ i _. cbn. lia.
Qed.

(** The [while] loop of the compiled scan visits [start + dir * i] for
    [i = 0 .. n-1] and stops; [n] steps of fuel suffice. *)
Lemma while_ne_fold (body : Z -> buffer -> buffer) (dir : Z) (n fuel : nat)
    (x0 : Z) (work : buffer) :
  dir <> 0 -> (n <= fuel)%nat ->
  while_ne fuel x0 (x0 + dir * Z.of_nat n) dir body work
  = Some (foldl (fun w x => body x w) work
            ((fun i => x0 + dir * i) <$> seqZ 0 (Z.of_nat n))).
Proof.
  intros Hdir. revert fuel x0 work.
  induction n as [|n IH]; intros fuel x0 work Hfuel.
  - replace (x0 + dir * Z.of_nat 0) with x0 by lia.
    destruct fuel; cbn [while_ne]; rewrite Z.eqb_refl; reflexivity.
  - destruct fuel as [|fuel]; [lia|]. cbn [while_ne].
    destruct (x0 =? x0 + dir * Z.of_nat (S n)) eqn:E; [apply Z.eqb_eq in E; nia|].
    rewrite affine_seqZ_cons. cbn [foldl].
    replace (x0 + dir * Z.of_nat (S n)) with ((x0 + dir) + dir * Z.of_nat n) by lia.
    apply IH. lia.
Qed.

Lemma py_range_up (W : Z) : py_range 0 W 1 = xs_of W false.
Proof.
  unfold py_range, xs_of. cbn [Z.ltb Z.compare].
  replace ((W - 0 + 1 - 1) / 1) with W by (rewrite Z.div_1_r; lia). reflexivity.
Qed.

Lemma py_range_down (W : Z) : py_range (W - 1) (-1) (-1) = xs_of W true.
Proof.
  unfold py_range, xs_of. cbn [Z.ltb Z.compare Z.opp].
  replace ((W - 1 - -1 - -1 - 1) / - (-1)) with W
    by (change (- (-1)) with 1; rewrite Z.div_1_r; lia).
  reflexivity.
Qed.

Lemma for_each_err {A S} (xs : list A) (body : A -> S -> result S) (e : error) :
  foldl (fun acc x => match acc with Ok s => body x s | Err e => Err e end)
        (Err e) xs = Err e.
Proof. induction xs as [|x xs IH]; [reflexivity|exact IH]. Qed.

(** A loop whose body succeeds on every state it meets is a fold. *)
Lemma for_each_ok {A S} (Inv : S -> Prop) (xs : list A) (s : S)
    (body : A -> S -> result S) (g : A -> S -> S) :
  Inv s ->
  (forall x s, x ∈ xs -> Inv s -> body x s = Ok (g x s) /\ Inv (g x s)) ->
  for_each xs s body = Ok (foldl (fun s x => g x s) s xs)
  /\ Inv (foldl (fun s x => g x s) s xs).
Proof.
  unfold for_each. revert s. induction xs as [|x xs IH]; intros s Hs Hbody.
  - split; [reflexivity|exact Hs].
  - cbn [foldl].
    destruct (Hbody x s ltac:(left) Hs) as [-> Hs'].
    apply IH; [exact Hs'|]. intros x' s' Hx'. apply Hbody. right. exact Hx'.
Qed.

(** Both scans, once their loops are folds: rows top to bottom, each row
    in its direction. *)
Definition pure_scan (px : Z -> Z -> Z -> buffer -> buffer) (H W : Z)
    (serpentine : bool) (work : buffer) : buffer :=
  foldl (fun w y =>
           let rev := serpentine && (y mod 2 =? 1) in
           foldl (fun w x => px y x (if rev then -1 else 1) w) w (xs_of W rev))
        work (seqZ 0 H).

Lemma width_nonneg {A} (arr : image A) : 0 <= width arr.
Proof. unfold width. destruct arr; lia. Qed.

(** The compiled scan never runs out of fuel. *)
Lemma numba_impl_scan (k : kernel) (work : buffer) (L : Z) (serpentine : bool) :
  L - 1 <> 0 ->
  numba_impl k work L serpentine
  = Ok (pure_scan (fun y x dir => numba_pixel k (height work) (width work) L y x dir)
          (height work) (width work) serpentine work).
Proof.
  intros HL. unfold numba_impl, pure_scan.
  destruct (L - 1 =? 0) eqn:E; [apply Z.eqb_eq in E; contradiction|].
  set (H := height work). set (W := width work).
  assert (HW : W = Z.of_nat (Z.to_nat W))
    by (pose proof (width_nonneg work); subst W; lia).
  refine (proj1 (for_each_ok (fun _ => True) _ _ _
                   (fun y w => foldl _ w (xs_of W (serpentine && (y mod 2 =? 1))))
                   I _)).
  intros y w _ _. split; [|exact I].
  destruct (serpentine && (y mod 2 =? 1)).
  - pose proof (while_ne_fold (fun x => numba_pixel k H W L y x (-1)) (-1)
                  (Z.to_nat W) (Z.to_nat W) (W - 1) w ltac:(lia) ltac:(lia)) as Hw.
    replace (W - 1 + -1 * Z.of_nat (Z.to_nat W)) with (-1) in Hw by lia.
    rewrite <- HW in Hw. cbn zeta. rewrite Hw. reflexivity.
  - pose proof (while_ne_fold (fun x => numba_pixel k H W L y x 1) 1
                  (Z.to_nat W) (Z.to_nat W) 0 w ltac:(lia) ltac:(lia)) as Hw.
    replace (0 + 1 * Z.of_nat (Z.to_nat W)) with W in Hw by lia.
    rewrite <- HW in Hw. cbn zeta. rewrite Hw. reflexivity.
Qed.

(** ** The interpreted scan diffuses nothing *)

(** What [_quantize_levels] does to a pixel when [L >= 2]. *)
Definition quantize_cell (L : Z) (p : rgb Qc) : rgb Qc :=
  rgb_map (fun c => of_int (_quantize_none1 (this c) L)) p.

Definition zero_err : rgb Qc := RGB (Q2Qc 0) (Q2Qc 0) (Q2Qc 0).

(** A kernel hands out shares of the error and nothing else. *)
Definition kernel_linear (k : kernel) : Prop :=
  forall H W y x dir work, k H W y x dir zero_err work = work.

Lemma quantize_levels_cell (p : rgb Qc) (L : Z) :
  2 <= L -> _quantize_levels p L = Ok (quantize_cell L p).
Proof.
  intros HL. unfold _quantize_levels. rewrite !quantize_levels1_none1 by exact HL.
  reflexivity.
Qed.

Lemma fallback_pixel_quantizes (k : kernel) (H W L y x dir : Z) (work : buffer) :
  kernel_linear k -> 2 <= L ->
  fallback_pixel k H W L y x dir work = Ok (upd (quantize_cell L) work y x).
Proof.
  intros Hk HL. unfold fallback_pixel.
  destruct (get work y x) as [old|] eqn:Hold.
  - rewrite quantize_levels_cell by exact HL. unfold set_at.
    rewrite (get_upd_eq work y x old Hold).
    assert (Herr : rgb_zip Qcminus (quantize_cell L old) (quantize_cell L old) = zero_err).
    { unfold rgb_zip, zero_err. f_equal; ring. }
    rewrite Herr, Hk. f_equal. apply upd_ext.
    intros p Hp. rewrite Hold in Hp. injection Hp as <-. reflexivity.
  - f_equal. symmetry. apply upd_fixed. intros p Hp. rewrite Hold in Hp. discriminate Hp.
Qed.

Lemma floyd_kernel_linear : kernel_linear floyd_kernel.
Proof.
  intros H W y x dir work. unfold floyd_kernel, zero_err.
  rewrite !add_at_zero. repeat match goal with |- context [if ?b then _ else _] => destruct b end;
    reflexivity.
Qed.

Lemma atkinson_kernel_linear : kernel_linear atkinson_kernel.
Proof.
  intros H W y x dir work. unfold atkinson_kernel, zero_err.
  cbn zeta. rewrite ?add_at_zero.
  repeat match goal with |- context [if ?b then _ else _] => destruct b end;
    rewrite ?add_at_zero; reflexivity.
Qed.

Lemma sierra_kernel_linear : kernel_linear sierra_kernel.
Proof.
  intros H W y x dir work. unfold sierra_kernel, zero_err.
  cbn zeta. rewrite ?add_at_zero.
  repeat match goal with |- context [if ?b then _ else _] => destruct b end;
    rewrite ?add_at_zero; reflexivity.
Qed.

(** ** An invariant of the scan

    Cells the scan has passed satisfy [P] and are not written again; the
    cells still ahead satisfy [U]. *)

(** [(cy, cx)] is scanned before [(y, x)] in a row of direction [dir]. *)
Definition before (cy cx y x dir : Z) : Prop :=
  cy < y \/ (cy = y /\ (cx - x) * dir < 0).

Section ScanInvariant.

Variable px : Z -> Z -> Z -> buffer -> buffer.
Variables H W : Z.
Variables P U : Z -> Z -> rgb Qc -> Prop.

Hypothesis px_shape : forall y x dir w,
  has_shape w H W -> has_shape (px y x dir w) H W.

Hypothesis px_frame : forall y x dir w cy cx,
  dir = 1 \/ dir = -1 -> 0 <= y < H -> 0 <= x < W -> 0 <= cy < H -> 0 <= cx < W ->
  before cy cx y x dir -> get (px y x dir w) cy cx = get w cy cx.

Hypothesis px_set : forall y x dir w v,
  dir = 1 \/ dir = -1 -> has_shape w H W -> 0 <= y < H -> 0 <= x < W ->
  get w y x = Some v -> U y x v ->
  exists p, get (px y x dir w) y x = Some p /\ P y x p.

Hypothesis px_after : forall y x dir w v0 cy cx v,
  dir = 1 \/ dir = -1 -> has_shape w H W ->
  0 <= y < H -> 0 <= x < W -> 0 <= cy < H -> 0 <= cx < W ->
  get w y x = Some v0 -> U y x v0 ->
  ~ before cy cx y x dir -> (cy <> y \/ cx <> x) ->
  get w cy cx = Some v -> U cy cx v ->
  exists v', get (px y x dir w) cy cx = Some v' /\ U cy cx v'.

Definition inv (visited : Z -> Z -> Prop) (w : buffer) : Prop :=
  has_shape w H W
  /\ forall cy cx, 0 <= cy < H -> 0 <= cx < W ->
       exists v, get w cy cx = Some v
         /\ (visited cy cx -> P cy cx v) /\ (~ visited cy cx -> U cy cx v).

Lemma inv_equiv (vis vis' : Z -> Z -> Prop) (w : buffer) :
  (forall cy cx, 0 <= cy < H -> 0 <= cx < W -> (vis cy cx <-> vis' cy cx)) ->
  inv vis w -> inv vis' w.
Proof.
  intros Heq [Hs Hc]. split; [exact Hs|]. intros cy cx Hcy Hcx.
  destruct (Hc cy cx Hcy Hcx) as (v & Hv & HP & HU).
  exists v. split; [exact Hv|]. specialize (Heq cy cx Hcy Hcx). split.
  - intros Hvis. apply HP, Heq, Hvis.
  - intros Hn. apply HU. intros Hvis. apply Hn, Heq, Hvis.
Qed.

(** The cells of row [y] passed after [j] steps from [start] in
    direction [dir]. *)
Definition passed (y start dir j cy cx : Z) : Prop :=
  cy < y \/ (cy = y /\ 0 <= (cx - start) * dir < j).

Lemma row_step (y start dir : Z) (j : nat) (w : buffer) :
  (start = 0 /\ dir = 1) \/ (start = W - 1 /\ dir = -1) ->
  0 <= y < H -> Z.of_nat j < W ->
  inv (passed y start dir (Z.of_nat j)) w ->
  inv (passed y start dir (Z.of_nat (S j))) (px y (start + dir * Z.of_nat j) dir w).
Proof.
  intros Hsd Hy Hj [Hs Hc].
  set (x := start + dir * Z.of_nat j).
  assert (Hdir : dir = 1 \/ dir = -1) by (destruct Hsd as [[_ ?]|[_ ?]]; auto).
  assert (Hx : 0 <= x < W) by (subst x; destruct Hsd as [[-> ->]|[-> ->]]; lia).
  split; [apply px_shape; exact Hs|].
  destruct (Hc y x Hy Hx) as (v0 & Hv0 & _ & HU0).
  assert (Hnv : ~ passed y start dir (Z.of_nat j) y x).
  { unfold passed. subst x. destruct Hsd as [[-> ->]|[-> ->]]; lia. }
  specialize (HU0 Hnv).
  intros cy cx Hcy Hcx.
  destruct (Hc cy cx Hcy Hcx) as (v & Hv & HP & HU).
  destruct (decide (cy = y /\ cx = x)) as [[-> ->]|Hne].
  - destruct (px_set y x dir w v0 Hdir Hs Hy Hx Hv0 HU0) as (p & Hp & HPp).
    exists p. split; [exact Hp|]. split; [intros _; exact HPp|].
    intros Hn. exfalso. apply Hn. unfold passed. right. split; [reflexivity|].
    subst x. destruct Hsd as [[-> ->]|[-> ->]]; lia.
  - destruct (decide (cy < y \/ (cy = y /\ 0 <= (cx - start) * dir < Z.of_nat j)))
      as [Hvis|Hnvis].
    + rewrite px_frame; try assumption.
      * exists v. split; [exact Hv|]. split; [intros _; apply HP, Hvis|].
        intros Hn. exfalso. apply Hn. unfold passed.
        destruct Hvis as [?|[? ?]]; [left; assumption|right; split; lia].
      * unfold before. subst x.
        destruct Hvis as [?|[? ?]]; [left; assumption|right].
        destruct Hsd as [[-> ->]|[-> ->]]; lia.
    + assert (Hnb : ~ before cy cx y x dir).
      { unfold before. subst x. intros [?|[? ?]]; apply Hnvis;
          [left; assumption|right]. destruct Hsd as [[-> ->]|[-> ->]]; lia. }
      destruct (px_after y x dir w v0 cy cx v Hdir Hs Hy Hx Hcy Hcx Hv0 HU0 Hnb
                  ltac:(lia) Hv (HU Hnvis)) as (v' & Hv' & HU').
      exists v'. split; [exact Hv'|]. split; [|intros _; exact HU'].
      intros Hvis. exfalso. unfold passed in Hvis. subst x.
      destruct Hvis as [?|[? ?]]; [apply Hnvis; left; assumption|].
      destruct Hsd as [[-> ->]|[-> ->]]; lia.
Qed.

Lemma row_prefix (y start dir : Z) (j : nat) (w : buffer) :
  (start = 0 /\ dir = 1) \/ (start = W - 1 /\ dir = -1) ->
  0 <= y < H -> Z.of_nat j <= W ->
  inv (fun cy _ => cy < y) w ->
  inv (passed y start dir (Z.of_nat j))
      (foldl (fun w x => px y x dir w) w
         ((fun i => start + dir * i) <$> seqZ 0 (Z.of_nat j))).
Proof.
  intros Hsd Hy. induction j as [|j IH]; intros Hj Hinv.
  - cbn [foldl fmap list_fmap seqZ]. revert Hinv. apply inv_equiv.
    intros cy cx _ _. unfold passed. lia.
  - rewrite seqZ_S, fmap_app, foldl_app. cbn [fmap list_fmap foldl].
    replace (0 + Z.of_nat j) with (Z.of_nat j) by lia.
    apply row_step; [exact Hsd|exact Hy|lia|]. apply IH; [lia|exact Hinv].
Qed.

Lemma row_done (y : Z) (rev : bool) (w : buffer) :
  0 <= y < H -> 0 <= W ->
  inv (fun cy _ => cy < y) w ->
  inv (fun cy _ => cy < y + 1)
      (foldl (fun w x => px y x (if rev then -1 else 1) w) w (xs_of W rev)).
Proof.
  intros Hy HW Hinv. unfold xs_of.
  assert (Hsd : ((if rev then W - 1 else 0) = 0 /\ (if rev then -1 else 1) = 1)
                \/ ((if rev then W - 1 else 0) = W - 1
                    /\ (if rev then -1 else 1) = -1))
    by (destruct rev; [right|left]; split; reflexivity).
  pose proof (row_prefix y _ _ (Z.to_nat W) w Hsd Hy ltac:(lia) Hinv) as Hrow.
  rewrite Z2Nat.id in Hrow by exact HW.
  revert Hrow. apply inv_equiv. intros cy cx Hcy Hcx. unfold passed.
  destruct rev; lia.
Qed.

Lemma rows_prefix (serpentine : bool) (n : nat) (w : buffer) :
  Z.of_nat n <= H -> 0 <= W ->
  inv (fun _ _ => False) w ->
  inv (fun cy _ => cy < Z.of_nat n)
      (foldl (fun w y =>
                let rev := serpentine && (y mod 2 =? 1) in
                foldl (fun w x => px y x (if rev then -1 else 1) w) w (xs_of W rev))
             w (seqZ 0 (Z.of_nat n))).
Proof.
  intros Hn HW Hinv. induction n as [|n IH].
  - cbn [foldl seqZ]. revert Hinv. apply inv_equiv. intros cy cx Hcy _. lia.
  - rewrite seqZ_S, foldl_app. cbn [foldl].
    replace (0 + Z.of_nat n) with (Z.of_nat n) by lia.
    replace (Z.of_nat (S n)) with (Z.of_nat n + 1) by lia.
    apply row_done; [lia|exact HW|]. apply IH. lia.
Qed.

(** After the scan every cell satisfies [P]. *)
Lemma scan_invariant (serpentine : bool) (w : buffer) :
  0 <= H -> 0 <= W -> has_shape w H W ->
  (forall cy cx v, 0 <= cy < H -> 0 <= cx < W -> get w cy cx = Some v -> U cy cx v) ->
  has_shape (pure_scan px H W serpentine w) H W
  /\ forall cy cx, 0 <= cy < H -> 0 <= cx < W ->
       exists v, get (pure_scan px H W serpentine w) cy cx = Some v /\ P cy cx v.
Proof.
  intros HH HW Hs HU.
  assert (Hinv : inv (fun _ _ => False) w).
  { split; [exact Hs|]. intros cy cx Hcy Hcx.
    destruct (get_in_range w H W cy cx Hs Hcy Hcx) as [v Hv].
    exists v. split; [exact Hv|]. split; [intros []|]. intros _. eapply HU; eassumption. }
  pose proof (rows_prefix serpentine (Z.to_nat H) w ltac:(lia) HW Hinv) as [Hs' Hc].
  rewrite Z2Nat.id in Hs', Hc by exact HH.
  split; [exact Hs'|]. intros cy cx Hcy Hcx.
  destruct (Hc cy cx Hcy Hcx) as (v & Hv & HP & _).
  exists v. split; [exact Hv|]. apply HP. lia.
Qed.

End ScanInvariant.

(** ** What a kernel may touch *)

(** A kernel keeps the shape of the buffer and writes neither the current
    pixel nor a pixel scanned before it. *)
Definition kernel_local (k : kernel) : Prop :=
  (forall H W y x dir err w, has_shape w H W -> has_shape (k H W y x dir err w) H W)
  /\ (forall H W y x dir err w cy cx,
        dir = 1 \/ dir = -1 -> 0 <= y -> 0 <= x < W -> 0 <= cy -> 0 <= cx ->
        cy < y \/ (cy = y /\ (cx - x) * dir <= 0) ->
        get (k H W y x dir err w) cy cx = get w cy cx).

Ltac guards :=
  repeat match goal with
    | |- context [if ?b then _ else _] => destruct b eqn:?
    end;
  repeat match goal with
    | Hg : in_width _ _ = true |- _ =>
        unfold in_width in Hg; apply andb_prop in Hg; destruct Hg
    | Hg : (_ <=? _) = true |- _ => apply Z.leb_le in Hg
    | Hg : (_ <? _) = true |- _ => apply Z.ltb_lt in Hg
    end.

Ltac kernel_shape := intros; cbn zeta; guards; repeat apply upd_shape; assumption.

Ltac kernel_frame :=
  intros; cbn zeta; guards;
  match goal with Hd : _ = 1 \/ _ = -1 |- _ => destruct Hd; subst end;
  unfold add_at; repeat (rewrite get_upd_ne; [|lia..]); reflexivity.

Lemma floyd_kernel_local : kernel_local floyd_kernel.
Proof. split; unfold floyd_kernel; [kernel_shape|kernel_frame]. Qed.

Lemma atkinson_kernel_local : kernel_local atkinson_kernel.
Proof. split; unfold atkinson_kernel; [kernel_shape|kernel_frame]. Qed.

Lemma sierra_kernel_local : kernel_local sierra_kernel.
Proof. split; unfold sierra_kernel; [kernel_shape|kernel_frame]. Qed.

(** ** The compiled scan leaves levels behind *)

Lemma quantize_scalar_level (L : Z) (old : Qc) :
  2 <= L -> is_level L (quantize_scalar L old).
Proof.
  intros HL. unfold quantize_scalar, is_level, level_value.
  set (q0 := rint (this old * inject_Z (L - 1) / 255)).
  exists (if q0 <? 0 then 0 else if q0 >? L - 1 then L - 1 else q0).
  split; [|reflexivity].
  destruct (q0 <? 0) eqn:E0; [lia|].
  destruct (q0 >? L - 1) eqn:E1; lia.
Qed.

(** A float cell holding a level. *)
Definition level_cell (L : Z) (p : rgb Qc) : Prop :=
  rgb_all (fun c => exists v, is_level L v /\ c = of_int v) p.

Section NumbaPixel.

Variable k : kernel.
Hypothesis k_local : kernel_local k.
Variables H W L : Z.
Hypothesis HL : 2 <= L.

Lemma numba_pixel_shape (y x dir : Z) (w : buffer) :
  has_shape w H W -> has_shape (numba_pixel k H W L y x dir w) H W.
Proof.
  intros Hs. unfold numba_pixel. destruct (get w y x); [|exact Hs].
  apply (proj1 k_local). apply upd_shape. exact Hs.
Qed.

Lemma numba_pixel_frame (y x dir : Z) (w : buffer) (cy cx : Z) :
  dir = 1 \/ dir = -1 -> 0 <= y < H -> 0 <= x < W -> 0 <= cy < H -> 0 <= cx < W ->
  before cy cx y x dir ->
  get (numba_pixel k H W L y x dir w) cy cx = get w cy cx.
Proof.
  intros Hd Hy Hx Hcy Hcx Hb. unfold numba_pixel.
  destruct (get w y x); [|reflexivity].
  rewrite (proj2 k_local) by (try lia; unfold before in Hb; lia).
  unfold set_at. apply get_upd_ne; try lia.
  unfold before in Hb. destruct Hd; subst; lia.
Qed.

Lemma numba_pixel_set (y x dir : Z) (w : buffer) (v : rgb Qc) :
  dir = 1 \/ dir = -1 -> has_shape w H W -> 0 <= y < H -> 0 <= x < W ->
  get w y x = Some v -> True ->
  exists p, get (numba_pixel k H W L y x dir w) y x = Some p /\ level_cell L p.
Proof.
  intros Hd Hs Hy Hx Hv _. unfold numba_pixel. rewrite Hv.
  rewrite (proj2 k_local) by lia.
  unfold set_at. rewrite (get_upd_eq w y x v Hv).
  eexists. split; [reflexivity|].
  unfold level_cell, rgb_all, rgb_map. cbn [chan0 chan1 chan2].
  repeat split; eexists; (split; [apply quantize_scalar_level; exact HL|reflexivity]).
Qed.

Lemma numba_pixel_after (y x dir : Z) (w : buffer) (v0 : rgb Qc) (cy cx : Z)
    (v : rgb Qc) :
  dir = 1 \/ dir = -1 -> has_shape w H W ->
  0 <= y < H -> 0 <= x < W -> 0 <= cy < H -> 0 <= cx < W ->
  get w y x = Some v0 -> True ->
  ~ before cy cx y x dir -> (cy <> y \/ cx <> x) ->
  get w cy cx = Some v -> True ->
  exists v', get (numba_pixel k H W L y x dir w) cy cx = Some v' /\ True.
Proof.
  intros _ Hs _ _ Hcy Hcx _ _ _ _ _ _.
  destruct (get_in_range _ H W cy cx (numba_pixel_shape y x dir w Hs) Hcy Hcx)
    as [v' Hv'].
  exists v'. split; [exact Hv'|exact I].
Qed.

Lemma numba_scan_levels (serpentine : bool) (w : buffer) :
  0 <= H -> 0 <= W -> has_shape w H W ->
  has_shape (pure_scan (numba_pixel k H W L) H W serpentine w) H W
  /\ forall cy cx, 0 <= cy < H -> 0 <= cx < W ->
       exists v, get (pure_scan (numba_pixel k H W L) H W serpentine w) cy cx = Some v
                 /\ level_cell L v.
Proof.
  intros HH HW Hs.
  apply (scan_invariant (numba_pixel k H W L) H W
           (fun _ _ => level_cell L) (fun _ _ _ => True)
           numba_pixel_shape numba_pixel_frame numba_pixel_set numba_pixel_after
           serpentine w HH HW Hs).
  intros; exact I.
Qed.

End NumbaPixel.

(** ** From the buffer back to an image *)

Lemma img_map_shape {A B} (f : A -> B) (arr : image A) (H W : Z) :
  has_shape arr H W -> has_shape (img_map f arr) H W.
Proof.
  intros [Hlen Hrows]. unfold img_map. split; [rewrite length_map; exact Hlen|].
  apply Forall_map. eapply Forall_impl; [exact Hrows|].
  cbn. intros row Hr. rewrite length_map. exact Hr.
Qed.

Lemma img_map_height {A B} (f : A -> B) (arr : image A) :
  height (img_map f arr) = height arr.
Proof. unfold height, img_map. rewrite length_map. reflexivity. Qed.

Lemma img_map_width {A B} (f : A -> B) (arr : image A) :
  width (img_map f arr) = width arr.
Proof.
  unfold width, img_map. destruct arr as [|row arr]; [reflexivity|].
  cbn [map]. rewrite length_map. reflexivity.
Qed.

Lemma img_map_Forall {A B} (f : A -> B) (Q : B -> Prop) (arr : image A) :
  Forall (Forall (rgb_all (fun c => Q (f c)))) arr ->
  Forall (Forall (rgb_all Q)) (img_map f arr).
Proof.
  intros Harr. unfold img_map. apply Forall_map.
  eapply Forall_impl; [exact Harr|]. cbn. intros row Hrow.
  apply Forall_map. eapply Forall_impl; [exact Hrow|].
  cbn. intros p Hp. exact Hp.
Qed.

(** A property of every cell in range is a property of the whole array. *)
Lemma cells_Forall {A} (Pc : A -> Prop) (arr : list (list A)) (H W : Z) :
  has_shape arr H W ->
  (forall cy cx, 0 <= cy < H -> 0 <= cx < W ->
     exists v, get arr cy cx = Some v /\ Pc v) ->
  Forall (Forall Pc) arr.
Proof.
  intros [Hlen Hrows] Hc.
  apply Forall_lookup. intros i row Hrow.
  apply Forall_lookup. intros j p Hp.
  pose proof (proj1 (Forall_lookup _ _) Hrows _ _ Hrow) as Hl. cbn in Hl.
  assert (Hi : (i < length arr)%nat) by (apply lookup_lt_is_Some; eauto).
  assert (Hj : (j < length row)%nat) by (apply lookup_lt_is_Some; eauto).
  destruct (Hc (Z.of_nat i) (Z.of_nat j) ltac:(lia) ltac:(lia)) as (v & Hv & HP).
  apply get_Some in Hv. destruct Hv as (row' & Hrow' & Hv).
  rewrite Nat2Z.id in Hrow', Hv.
  rewrite Hrow in Hrow'. injection Hrow' as <-.
  rewrite Hp in Hv. injection Hv as <-. exact HP.
Qed.

Lemma level_range (L v : Z) : 2 <= L -> is_level L v -> 0 <= v <= 255.
Proof.
  intros HL (i & Hi & ->). unfold level_value.
  destruct (L - 1) as [|p|p] eqn:Hp; try lia.
  rewrite (rint_proper _ _ (level_expr i p)).
  apply level_value_range. exact Hi.
Qed.

Lemma rint_of_int (v : Z) : rint (this (of_int v)) = v.
Proof.
  unfold of_int. cbn [this Q2Qc].
  rewrite (rint_proper _ _ (Qred_correct (inject_Z v))). apply rint_inject_Z.
Qed.

(** The final rounding and clipping keep a level as it is. *)
Lemma finish_level (L : Z) (c : Qc) :
  2 <= L -> (exists v, is_level L v /\ c = of_int v) ->
  is_level L (clip (rint (this c)) 0 255).
Proof.
  intros HL (v & Hv & ->). rewrite rint_of_int.
  rewrite clip_id by (eapply level_range; eassumption). exact Hv.
Qed.

(** With a kernel that is local, the compiled path succeeds for [L >= 2],
    keeps the shape, and every output sample is one of the [L] levels. *)
Lemma numba_diffuse_levels (k : kernel) (arr : image Z) (L : Z) (serpentine : bool) :
  kernel_local k -> 2 <= L -> has_shape arr (height arr) (width arr) ->
  exists out,
    diffuse k true arr L serpentine = Ok out
    /\ has_shape out (height arr) (width arr)
    /\ Forall (Forall (rgb_all (is_level L))) out.
Proof.
  intros Hk HL Hs. unfold diffuse.
  rewrite numba_impl_scan by lia.
  unfold to_float. rewrite img_map_height, img_map_width.
  destruct (numba_scan_levels k Hk (height arr) (width arr) L HL serpentine
              (img_map of_int arr))
    as [Hs' Hc];
    [unfold height; lia|apply width_nonneg|apply img_map_shape; exact Hs|].
  eexists. split; [reflexivity|]. split.
  - unfold finish. apply img_map_shape. exact Hs'.
  - unfold finish. apply img_map_Forall.
    apply (cells_Forall _ _ _ _ Hs'). intros cy cx Hcy Hcx.
    destruct (Hc cy cx Hcy Hcx) as (v & Hv & Hlev).
    exists v. split; [exact Hv|].
    destruct Hlev as (H0 & H1 & H2).
    repeat split; apply finish_level; assumption.
Qed.

(** ** The interpreted scan is the plain quantizer *)

Lemma fallback_loop_scan (k : kernel) (work : buffer) (L : Z) (serpentine : bool) :
  kernel_linear k -> 2 <= L ->
  fallback_loop k work L serpentine
  = Ok (pure_scan (fun y x _ w => upd (quantize_cell L) w y x)
          (height work) (width work) serpentine work).
Proof.
  intros Hk HL. unfold fallback_loop, pure_scan.
  set (H := height work). set (W := width work).
  refine (proj1 (for_each_ok (fun _ => True) _ _ _
                   (fun y w => foldl (fun w x => upd (quantize_cell L) w y x) w
                                 (xs_of W (serpentine && (y mod 2 =? 1))))
                   I _)).
  intros y w _ _. split; [|exact I].
  destruct (serpentine && (y mod 2 =? 1)); cbn zeta.
  - rewrite py_range_down.
    refine (proj1 (for_each_ok (fun _ => True) _ _ _
                     (fun x w => upd (quantize_cell L) w y x) I _)).
    intros x w' _ _. split; [|exact I]. apply fallback_pixel_quantizes; assumption.
  - rewrite py_range_up.
    refine (proj1 (for_each_ok (fun _ => True) _ _ _
                     (fun x w => upd (quantize_cell L) w y x) I _)).
    intros x w' _ _. split; [|exact I]. apply fallback_pixel_quantizes; assumption.
Qed.

(** Two buffers of one shape with the same cells are the same buffer. *)
Lemma buffer_eq {A} (w1 w2 : list (list A)) (H W : Z) :
  has_shape w1 H W -> has_shape w2 H W ->
  (forall cy cx, 0 <= cy < H -> 0 <= cx < W -> get w1 cy cx = get w2 cy cx) ->
  w1 = w2.
Proof.
  intros [Hl1 Hr1] [Hl2 Hr2] Hc. apply list_eq. intros i.
  destruct (w1 !! i) as [r1|] eqn:E1; destruct (w2 !! i) as [r2|] eqn:E2.
  - f_equal. apply list_eq. intros j.
    pose proof (proj1 (Forall_lookup _ _) Hr1 _ _ E1) as L1.
    pose proof (proj1 (Forall_lookup _ _) Hr2 _ _ E2) as L2. cbn in L1, L2.
    assert (Hi : (i < length w1)%nat) by (apply lookup_lt_is_Some; eauto).
    destruct (Nat.lt_ge_cases j (length r1)) as [Hj|Hj].
    + specialize (Hc (Z.of_nat i) (Z.of_nat j) ltac:(lia) ltac:(lia)).
      unfold get in Hc. rewrite !Nat2Z.id, E1, E2 in Hc. exact Hc.
    + rewrite (lookup_ge_None_2 r1 j Hj), (lookup_ge_None_2 r2 j ltac:(lia)).
      reflexivity.
  - apply lookup_lt_Some in E1. apply lookup_ge_None in E2. lia.
  - apply lookup_ge_None in E1. apply lookup_lt_Some in E2. lia.
  - reflexivity.
Qed.

Lemma get_map_map {A B} (f : A -> B) (w : list (list A)) (y x : Z) :
  get (map (map f) w) y x = f <$> get w y x.
Proof.
  unfold get.
  change (map (map f) w) with (fmap (M:=list) (map f) w).
  rewrite list_lookup_fmap. destruct (w !! Z.to_nat y) as [row|]; [|reflexivity].
  cbn. change (map f row) with (fmap (M:=list) f row). apply list_lookup_fmap.
Qed.

(** A scan that rewrites each pixel by [f] and touches nothing else maps
    [f] over the buffer. *)
Lemma pointwise_scan (f : rgb Qc -> rgb Qc) (H W : Z) (serpentine : bool)
    (w : buffer) :
  0 <= H -> 0 <= W -> has_shape w H W ->
  pure_scan (fun y x _ w => upd f w y x) H W serpentine w = map (map f) w.
Proof.
  intros HH HW Hs.
  destruct (scan_invariant (fun y x _ w => upd f w y x) H W
              (fun cy cx p => exists v, get w cy cx = Some v /\ p = f v)
              (fun cy cx v => get w cy cx = Some v)) with (serpentine := serpentine) (w := w)
    as [Hs' Hc]; try assumption.
  - intros. apply upd_shape. assumption.
  - intros y x dir w' cy cx Hd Hy Hx Hcy Hcx Hb. apply get_upd_ne; try lia.
    unfold before in Hb. destruct Hd; subst; lia.
  - intros y x dir w' v _ _ _ _ Hv HU. exists (f v).
    split; [apply get_upd_eq; exact Hv|]. exists v. split; [exact HU|reflexivity].
  - intros y x dir w' v0 cy cx v _ _ Hy Hx Hcy Hcx _ _ _ Hne Hv HU.
    exists v. split; [|exact HU]. rewrite get_upd_ne by lia. exact Hv.
  - intros. assumption.
  - apply (buffer_eq _ _ H W Hs').
    + destruct Hs as [Hl Hr]. split; [rewrite length_map; exact Hl|].
      apply Forall_map. eapply Forall_impl; [exact Hr|].
      cbn. intros row Hrow. rewrite length_map. exact Hrow.
    + intros cy cx Hcy Hcx.
      destruct (Hc cy cx Hcy Hcx) as (p & Hp & v & Hv & ->).
      rewrite Hp, get_map_map, Hv. reflexivity.
Qed.

Lemma quantize_none1_proper (v v' : Q) (L : Z) :
  (v == v')%Q -> _quantize_none1 v L = _quantize_none1 v' L.
Proof.
  intros Heq. unfold _quantize_none1. destruct (L <=? 1); [reflexivity|].
  assert (Hr : rint (v * inject_Z (L - 1) / 255) = rint (v' * inject_Z (L - 1) / 255))
    by (apply rint_proper; rewrite Heq; reflexivity).
  rewrite Hr. reflexivity.
Qed.

Lemma img_map_map {A B C} (f : A -> B) (g : B -> C) (arr : image A) :
  img_map g (img_map f arr) = img_map (fun v => g (f v)) arr.
Proof.
  unfold img_map. rewrite map_map. apply map_ext. intros row.
  rewrite map_map. apply map_ext. intros [a b c]. reflexivity.
Qed.

Lemma quantize_none_levels (arr : image Z) (L : Z) :
  2 <= L -> Forall (Forall (rgb_all (is_level L))) (_quantize_none arr L).
Proof.
  intros HL. unfold _quantize_none. apply img_map_Forall.
  apply Forall_forall. intros row _. apply Forall_forall. intros p _.
  repeat split; apply quantize_none1_level; exact HL.
Qed.

(** With a kernel that only hands out shares of the error, the interpreted
    path returns the plain quantization of the image. *)
Lemma fallback_diffuse_quantizes (k : kernel) (arr : image Z) (L : Z)
    (serpentine : bool) :
  kernel_linear k -> 2 <= L -> has_shape arr (height arr) (width arr) ->
  diffuse k false arr L serpentine = Ok (_quantize_none arr L).
Proof.
  intros Hk HL Hs. unfold diffuse.
  rewrite fallback_loop_scan by assumption.
  unfold to_float. rewrite img_map_height, img_map_width.
  rewrite pointwise_scan;
    [|unfold height; lia|apply width_nonneg|apply img_map_shape; exact Hs].
  f_equal. unfold finish, _quantize_none.
  change (map (map (quantize_cell L)) (img_map of_int arr))
    with (img_map (fun c => of_int (_quantize_none1 (this c) L)) (img_map of_int arr)).
  rewrite !img_map_map.
  apply img_map_ext with (P := fun _ => True);
    [|apply Forall_forall; intros row _; apply Forall_forall; intros p _;
      repeat split].
  intros v _. rewrite rint_of_int.
  assert (Hq : _quantize_none1 (this (of_int v)) L = _quantize_none1 (inject_Z v) L)
    by (apply quantize_none1_proper; unfold of_int; cbn [this Q2Qc]; apply Qred_correct).
  rewrite Hq. apply clip_id.
  apply (level_range L); [exact HL|]. apply quantize_none1_level. exact HL.
Qed.

(** ** The three diffusion dithers *)

(** Without Numba, [dither_floyd], [dither_atkinson] and [dither_sierra]
    diffuse no error at all: [old] aliases the pixel that has just been
    overwritten, so [err] is zero, and for [L >= 2] each returns the plain
    quantization [_quantize_none(arr, L)], whatever the scan order. *)
Theorem fallback_is_plain_quantizer (arr : image Z) (L : Z) (serpentine : bool) :
  2 <= L -> has_shape arr (height arr) (width arr) ->
  dither_floyd false arr L serpentine = Ok (_quantize_none arr L)
  /\ dither_atkinson false arr L serpentine = Ok (_quantize_none arr L)
  /\ dither_sierra false arr L serpentine = Ok (_quantize_none arr L).
Proof.
  intros HL Hs. unfold dither_floyd, dither_atkinson, dither_sierra.
  repeat split; apply fallback_diffuse_quantizes;
    auto using floyd_kernel_linear, atkinson_kernel_linear, sierra_kernel_linear.
Qed.

Lemma fallback_is_plain_quantizer_witness :
  dither_floyd false [[RGB 100 100 100; RGB 100 100 100]] 2 true
    = Ok (_quantize_none [[RGB 100 100 100; RGB 100 100 100]] 2)
  /\ dither_atkinson false [[RGB 100 100 100; RGB 100 100 100]] 2 true
    = Ok (_quantize_none [[RGB 100 100 100; RGB 100 100 100]] 2)
  /\ dither_sierra false [[RGB 100 100 100; RGB 100 100 100]] 2 true
    = Ok (_quantize_none [[RGB 100 100 100; RGB 100 100 100]] 2).
Proof.
  apply fallback_is_plain_quantizer; [lia|].
  split; [reflexivity|repeat constructor].
Defined.

Lemma diffuse_levels (k : kernel) (has_numba : bool) (arr : image Z) (L : Z)
    (serpentine : bool) :
  kernel_local k -> kernel_linear k ->
  2 <= L -> has_shape arr (height arr) (width arr) ->
  exists out,
    diffuse k has_numba arr L serpentine = Ok out
    /\ has_shape out (height arr) (width arr)
    /\ Forall (Forall (rgb_all (is_level L))) out.
Proof.
  intros Hloc Hlin HL Hs. destruct has_numba.
  - apply numba_diffuse_levels; assumption.
  - rewrite fallback_diffuse_quantizes by assumption.
    eexists. split; [reflexivity|]. split.
    + unfold _quantize_none. apply img_map_shape. exact Hs.
    + apply quantize_none_levels. exact HL.
Qed.



(** ** The compiled quantizer and images already on the grid *)

(** For [L >= 2] the scalar quantizer of the compiled loops computes what
    [_quantize_none] and [_quantize_levels] compute. *)
Lemma quantize_scalar_none1 (L : Z) (old : Qc) :
  2 <= L -> quantize_scalar L old = _quantize_none1 (this old) L.
Proof.
  intros HL. unfold quantize_scalar, _quantize_none1.
  destruct (L <=? 1) eqn:H1; [apply Z.leb_le in H1; lia|].
  set (q0 := rint (this old * inject_Z (L - 1) / 255)).
  assert (Hq : (if q0 <? 0 then 0 else if q0 >? L - 1 then L - 1 else q0)
               = clip q0 0 (L - 1)).
  { unfold clip. destruct (q0 <? 0) eqn:E0; [lia|].
    destruct (q0 >? L - 1) eqn:E1; lia. }
  rewrite Hq. symmetry. apply clip_id.
  assert (Hi : 0 <= clip q0 0 (L - 1) <= L - 1) by (apply clip_range; lia).
  apply (level_range L); [exact HL|]. exists (clip q0 0 (L - 1)).
  split; [exact Hi|reflexivity].
Qed.

Lemma quantize_none1_of_int (L v : Z) :
  2 <= L -> is_level L v -> _quantize_none1 (this (of_int v)) L = v.
Proof.
  intros HL (i & Hi & ->).
  rewrite (quantize_none1_proper _ (inject_Z (level_value L i)))
    by (unfold of_int; cbn [this Q2Qc]; apply Qred_correct).
  apply quantize_level_fixed; assumption.
Qed.

Lemma Forall_get {A} (Pc : A -> Prop) (arr : list (list A)) (y x : Z) (p : A) :
  Forall (Forall Pc) arr -> get arr y x = Some p -> Pc p.
Proof.
  intros Harr Hp. apply get_Some in Hp. destruct Hp as (row & Hrow & Hp).
  pose proof (proj1 (Forall_lookup _ _) Harr _ _ Hrow) as Hr.
  exact (proj1 (Forall_lookup _ _) Hr _ _ Hp).
Qed.

(** On a buffer of levels the compiled pixel step changes nothing. *)
Lemma numba_pixel_fixed (k : kernel) (H W L y x dir : Z) (w : buffer) :
  kernel_linear k -> 2 <= L -> Forall (Forall (level_cell L)) w ->
  numba_pixel k H W L y x dir w = w.
Proof.
  intros Hk HL Hw. unfold numba_pixel.
  destruct (get w y x) as [old|] eqn:Hold; [|reflexivity].
  assert (Hnew : rgb_map (fun o => of_int (quantize_scalar L o)) old = old).
  { destruct (Forall_get _ _ _ _ _ Hw Hold) as ((a & Ha & Ea) & (b & Hb & Eb) & (c & Hc & Ec)).
    destruct old as [o0 o1 o2]. cbn [chan0 chan1 chan2] in Ea, Eb, Ec. subst.
    unfold rgb_map. cbn [chan0 chan1 chan2].
    rewrite !quantize_scalar_none1, !quantize_none1_of_int by assumption.
    reflexivity. }
  rewrite Hnew.
  assert (Herr : rgb_zip Qcminus old old = zero_err)
    by (unfold rgb_zip, zero_err; f_equal; ring).
  rewrite Herr, Hk. unfold set_at. apply upd_fixed.
  intros p Hp. rewrite Hold in Hp. injection Hp as <-. reflexivity.
Qed.

Lemma pure_scan_fixed (px : Z -> Z -> Z -> buffer -> buffer) (H W : Z)
    (serpentine : bool) (w : buffer) :
  (forall y x dir, px y x dir w = w) -> pure_scan px H W serpentine w = w.
Proof.
  intros Hpx. unfold pure_scan.
  induction (seqZ 0 H) as [|y ys IH] using rev_ind; [reflexivity|].
  rewrite foldl_app, IH. cbn [foldl].
  induction (xs_of W (serpentine && (y mod 2 =? 1))) as [|x xs IHx] using rev_ind;
    [reflexivity|].
  rewrite foldl_app, IHx. cbn [foldl]. apply Hpx.
Qed.

Lemma img_map_id {A} (f : A -> A) (P : A -> Prop) (arr : image A) :
  (forall v, P v -> f v = v) -> Forall (Forall (rgb_all P)) arr -> img_map f arr = arr.
Proof.
  intros Hf Harr. rewrite (img_map_ext P f (fun v => v) arr Hf Harr).
  unfold img_map. rewrite <- (map_id arr) at 2. apply map_ext. intros row.
  rewrite <- (map_id row) at 2. apply map_ext. intros [a b c]. reflexivity.
Qed.

Lemma finish_to_float (L : Z) (arr : image Z) :
  2 <= L -> Forall (Forall (rgb_all (is_level L))) arr ->
  finish (to_float arr) = arr.
Proof.
  intros HL Harr. unfold finish, to_float. rewrite img_map_map.
  apply img_map_id with (P := is_level L); [|exact Harr].
  intros v Hv. rewrite rint_of_int. apply clip_id. eapply level_range; eassumption.
Qed.

(** An image whose samples are all levels is returned unchanged, on both
    paths. *)
Lemma diffuse_fixed (k : kernel) (has_numba : bool) (arr : image Z) (L : Z)
    (serpentine : bool) :
  kernel_linear k -> 2 <= L -> has_shape arr (height arr) (width arr) ->
  Forall (Forall (rgb_all (is_level L))) arr ->
  diffuse k has_numba arr L serpentine = Ok arr.
Proof.
  intros Hk HL Hs Harr. destruct has_numba.
  - unfold diffuse. rewrite numba_impl_scan by lia.
    rewrite pure_scan_fixed.
    + rewrite (finish_to_float L) by assumption. reflexivity.
    + intros y x dir. apply numba_pixel_fixed; [exact Hk|exact HL|].
      unfold to_float. apply img_map_Forall.
      eapply Forall_impl; [exact Harr|]. cbn. intros row Hrow.
      eapply Forall_impl; [exact Hrow|]. cbn. intros p (H0 & H1 & H2).
      split; [|split]; eexists; (split; [|reflexivity]); assumption.
  - rewrite fallback_diffuse_quantizes by assumption. f_equal.
    unfold _quantize_none. apply img_map_id with (P := is_level L); [|exact Harr].
    intros v (i & Hi & ->). apply quantize_level_fixed; assumption.
Qed.

Lemma has_shape_self {A} (arr : image A) (H W : Z) :
  has_shape arr H W -> has_shape arr (height arr) (width arr).
Proof.
  intros [Hlen Hrows]. split; [reflexivity|].
  destruct arr as [|row arr]; [constructor|].
  pose proof (Forall_inv Hrows) as Hrow. cbn beta in Hrow.
  cbn [width]. rewrite Hrow. exact Hrows.
Qed.



(** ** One level *)

Lemma quantize_levels_one (p : rgb Qc) : _quantize_levels p 1 = Err ZeroDivisionError.
Proof. reflexivity. Qed.

Lemma foldl_const {A S} (xs : list A) (s : S) : foldl (fun s _ => s) s xs = s.
Proof. induction xs as [|x xs IH]; [reflexivity|exact IH]. Qed.

Lemma fallback_one_level_nonempty (k : kernel) (arr : image Z) (serpentine : bool) :
  has_shape arr (height arr) (width arr) -> 0 < height arr -> 0 < width arr ->
  diffuse k false arr 1 serpentine = Err ZeroDivisionError.
Proof.
  intros Hs HH HW. unfold diffuse, fallback_loop, for_each.
  unfold to_float. rewrite img_map_height, img_map_width.
  rewrite (seqZ_cons 0 (height arr)) by exact HH. cbn [foldl].
  change (0 mod 2 =? 1) with false. rewrite andb_false_r.
  rewrite py_range_up. unfold xs_of. rewrite (seqZ_cons 0 (width arr)) by exact HW.
  cbn [fmap list_fmap foldl].
  destruct (get_in_range (img_map of_int arr) (height arr) (width arr) 0 0
              (img_map_shape _ _ _ _ Hs) ltac:(lia) ltac:(lia)) as [old Hold].
  assert (Hpx : fallback_pixel k (height arr) (width arr) 1 0 (0 + 1 * 0) 1
                  (img_map of_int arr) = Err ZeroDivisionError).
  { unfold fallback_pixel. change (0 + 1 * 0) with 0. rewrite Hold. reflexivity. }
  rewrite Hpx, !for_each_err. reflexivity.
Qed.

Lemma fallback_one_level_empty (k : kernel) (arr : image Z) (L : Z) (serpentine : bool) :
  has_shape arr (height arr) (width arr) -> height arr = 0 \/ width arr = 0 ->
  diffuse k false arr L serpentine = Ok arr.
Proof.
  intros Hs Hempty. unfold diffuse, fallback_loop.
  unfold to_float. rewrite img_map_height, img_map_width.
  assert (Hrows : Forall (Forall (rgb_all (fun _ : Z => False))) arr).
  { destruct Hempty as [H0|W0].
    - unfold height in H0. destruct arr; [constructor|cbn in H0; lia].
    - destruct Hs as [_ Hr]. eapply Forall_impl; [exact Hr|].
      cbn. intros row Hrow. destruct row; [constructor|cbn in Hrow; lia]. }
  match goal with
  | |- match ?e with _ => _ end = _ => assert (Hloop : e = Ok (img_map of_int arr))
  end.
  { destruct Hempty as [H0|W0].
    - rewrite H0. reflexivity.
    - rewrite W0.
      etransitivity;
        [refine (proj1 (for_each_ok (fun _ => True) _ _ _ (fun _ w => w) I _))
        |rewrite foldl_const; reflexivity].
      intros y w _ _. split; [|exact I].
      destruct (serpentine && (y mod 2 =? 1)); reflexivity. }
  rewrite Hloop. f_equal. unfold finish. rewrite img_map_map.
  apply img_map_id with (P := fun _ => False); [intros v []|exact Hrows].
Qed.

(** With [L = 1] the compiled path raises [ZeroDivisionError] on every
    image, the empty ones included ([step = 255.0 / (L - 1)] comes first);
    the interpreted path raises it as soon as there is a pixel, and
    returns an image without pixels as it is. *)
Theorem diffusion_one_level (d : bool -> image Z -> Z -> bool -> result (image Z))
    (arr : image Z) (serpentine : bool) :
  d = dither_floyd \/ d = dither_atkinson \/ d = dither_sierra ->
  has_shape arr (height arr) (width arr) ->
  d true arr 1 serpentine = Err ZeroDivisionError
  /\ (0 < height arr -> 0 < width arr ->
      d false arr 1 serpentine = Err ZeroDivisionError)
  /\ (height arr = 0 \/ width arr = 0 -> d false arr 1 serpentine = Ok arr).
Proof.
  intros Hd Hs.
  assert (Hk : exists k, d = diffuse k)
    by (destruct Hd as [->|[->| ->]]; eexists; reflexivity).
  destruct Hk as (k & ->). split; [reflexivity|]. split.
  - intros HH HW. apply fallback_one_level_nonempty; assumption.
  - intros He. apply fallback_one_level_empty; assumption.
Qed.

Lemma diffusion_one_level_witness :
  dither_sierra true [[RGB 1 2 3]] 1 true = Err ZeroDivisionError
  /\ (0 < height [[RGB 1 2 3]] -> 0 < width [[RGB 1 2 3]] ->
      dither_sierra false [[RGB 1 2 3]] 1 true = Err ZeroDivisionError)
  /\ (height [[RGB 1 2 3]] = 0 \/ width [[RGB 1 2 3]] = 0 ->
      dither_sierra false [[RGB 1 2 3]] 1 true = Ok [[RGB 1 2 3]]).
Proof.
  apply (diffusion_one_level dither_sierra); [right; right; reflexivity|].
  split; [reflexivity|repeat constructor].
Defined.



(** ** The level selector on every request *)



(** ** DitherDispatcher: [apply_dither] *)

(** [str.lower()] on an ASCII string: the letters A to Z move to a to z,
    every other character stays. *)
Definition lower_char (c : Ascii.ascii) : Ascii.ascii :=
  let n := Ascii.nat_of_ascii c in
  if (65 <=? n)%nat && (n <=? 90)%nat then Ascii.ascii_of_nat (n + 32) else c.

Fixpoint lower (s : string) : string :=
  match s with
  | EmptyString => EmptyString
  | String c s' => String (lower_char c) (lower s')
  end.

Definition is_ascii (s : string) : Prop :=
  Forall (fun c => (Ascii.nat_of_ascii c < 128)%nat) (list_ascii_of_string s).

Section Dispatcher.

(** The float cube root of the level selector, whether Numba could be
    imported, and the module [burkes], which [__init__.py] imports and
    calls. *)
Variable cbrt_round : Z -> Z.
Variable has_numba : bool.
Variable dither_burkes : image Z -> Z -> result (image Z).

(** [apply_dither(image_array, num_colors, method)].  An [image Z] is an
    array of shape (H, W, 3) by its type, so the first check of the source
    cannot fail here; [method] is an ASCII string. *)
Definition apply_dither (image_array : image Z) (num_colors : Z) (method : string) :
    result (image Z) :=
  if num_colors <? 2 then Err ValueError
  else
    match Levels._levels_from_num_colors cbrt_round num_colors with
    | Err e => Err e
    | Ok L =>
        let m := lower method in
        if String.eqb m "none" then Ok (_quantize_none image_array L)
        else if String.eqb m "floyd" then dither_floyd has_numba image_array L true
        else if String.eqb m "atkinson" then dither_atkinson has_numba image_array L true
        else if String.eqb m "burkes" then dither_burkes image_array L
        else if String.eqb m "sierra" then dither_sierra has_numba image_array L true
        else if String.eqb m "bayer2" then dither_bayer image_array L 2
        else if String.eqb m "bayer4" then dither_bayer image_array L 4
        else if String.eqb m "bayer8" then dither_bayer image_array L 8
        else Err ValueError
    end.

End Dispatcher.

Ltac method_eqb := cbv beta iota fix delta [String.eqb Ascii.eqb Bool.eqb].

Lemma apply_dither_ok (cbrt_round : Z -> Z) (has_numba : bool)
    (dither_burkes : image Z -> Z -> result (image Z))
    (arr : image Z) (num_colors : Z) (method : string) :
  2 <= num_colors -> has_shape arr (height arr) (width arr) ->
  In (lower method)
     ["none"; "floyd"; "atkinson"; "sierra"; "bayer2"; "bayer4"; "bayer8"]%string ->
  exists L out,
    Levels._levels_from_num_colors cbrt_round num_colors = Ok L
    /\ 2 <= L /\ (L ^ 3 <= num_colors \/ L = 2)
    /\ apply_dither cbrt_round has_numba dither_burkes arr num_colors method = Ok out
    /\ has_shape out (height arr) (width arr)
    /\ Forall (Forall (rgb_all (is_level L))) out.
Proof.
  intros Hn Hs Hm.
  destruct (levels_total cbrt_round num_colors Hn) as (L & HL & H2 & _ & Hd).
  unfold apply_dither.
  destruct (num_colors <? 2) eqn:Hlt; [apply Z.ltb_lt in Hlt; lia|].
  rewrite HL. cbn zeta.
  assert (Hout : exists out,
    (if String.eqb (lower method) "none" then Ok (_quantize_none arr L)
     else if String.eqb (lower method) "floyd" then dither_floyd has_numba arr L true
     else if String.eqb (lower method) "atkinson" then dither_atkinson has_numba arr L true
     else if String.eqb (lower method) "burkes" then dither_burkes arr L
     else if String.eqb (lower method) "sierra" then dither_sierra has_numba arr L true
     else if String.eqb (lower method) "bayer2" then dither_bayer arr L 2
     else if String.eqb (lower method) "bayer4" then dither_bayer arr L 4
     else if String.eqb (lower method) "bayer8" then dither_bayer arr L 8
     else Err ValueError) = Ok out
    /\ has_shape out (height arr) (width arr)
    /\ Forall (Forall (rgb_all (is_level L))) out).
  { cbn [In] in Hm.
    destruct Hm as [E|[E|[E|[E|[E|[E|[E|[]]]]]]]]; rewrite <- E; method_eqb.
    - eexists. split; [reflexivity|]. split.
      + unfold _quantize_none. apply img_map_shape. exact Hs.
      + apply quantize_none_levels. exact H2.
    - apply diffuse_levels;
        auto using floyd_kernel_local, floyd_kernel_linear.
    - apply diffuse_levels;
        auto using atkinson_kernel_local, atkinson_kernel_linear.
    - apply diffuse_levels;
        auto using sierra_kernel_local, sierra_kernel_linear.
    - apply (bayer_levels_pow2 arr L 1); [exact H2|lia|exact Hs].
    - apply (bayer_levels_pow2 arr L 2); [exact H2|lia|exact Hs].
    - apply (bayer_levels_pow2 arr L 3); [exact H2|lia|exact Hs]. }
  destruct Hout as (out & Hout & Hshape & Hlev).
  exists L, out.
  split; [reflexivity|]. split; [exact H2|]. split; [exact Hd|].
  split; [exact Hout|]. split; [exact Hshape|exact Hlev].
Qed.





(** ** Nearest-neighbour scaling ([utils/upscale.py], [utils/pixelate.py]) *)

(** [np.repeat(l, f, axis)] along one axis: every element [f] times in a
    row. *)
Definition repeat_each {A} (f : Z) (l : list A) : list A :=
  concat (map (replicate (Z.to_nat f)) l).

(** [upscale_nearest(arr, factor)]. *)
Definition upscale_nearest {A} (arr : image A) (factor : Z) : result (image A) :=
  if factor <? 1 then Err ValueError
  else if factor =? 1 then Ok arr
  else Ok (map (repeat_each factor) (repeat_each factor arr)).

(** [np.pad(l, (0, n), mode="edge")] along one axis: the last element [n]
    more times.  NumPy refuses to extend an empty axis; the callers below
    have returned before that. *)
Definition pad_edge {A} (n : Z) (l : list A) : list A :=
  match last l with
  | Some a => l ++ replicate (Z.to_nat n) a
  | None => l
  end.

(** [_pad_to_multiple(arr, factor)], its first component. *)
Definition _pad_to_multiple {A} (arr : image A) (factor : Z) : image A :=
  let h := height arr in
  let w := width arr in
  let pad_h := (factor - h mod factor) mod factor in
  let pad_w := (factor - w mod factor) mod factor in
  if (pad_h =? 0) && (pad_w =? 0) then arr
  else pad_edge pad_h (map (pad_edge pad_w) arr).

(** The slice [l[0:len(l):step]]. *)
Definition every_nth {A} (step : Z) (l : list A) : list A :=
  omap (fun i => l !! Z.to_nat (i * step))
       (seqZ 0 ((Z.of_nat (length l) + step - 1) / step)).

(** [downscale_block_average(arr, factor)]: despite its name it keeps the
    top-left pixel of every block. *)
Definition downscale_block_average {A} (arr : image A) (factor : Z) :
    result (image A) :=
  if factor <? 1 then Err ValueError
  else if factor =? 1 then Ok arr
  else
    let H := height arr in
    let W := width arr in
    let target_h := H / factor in
    let target_w := W / factor in
    if (target_h =? 0) || (target_w =? 0) then Err ValueError
    else
      let padded := _pad_to_multiple arr factor in
      let small := map (every_nth factor) (every_nth factor padded) in
      Ok (map (take (Z.to_nat target_w)) (take (Z.to_nat target_h) small)).

(** *** Lists repeated and sampled *)

Lemma length_repeat_each {A} (f : nat) (l : list A) :
  length (concat (map (replicate f) l)) = (length l * f)%nat.
Proof.
  induction l as [|a l IH]; [reflexivity|].
  cbn [map concat length]. rewrite length_app, length_replicate, IH. lia.
Qed.

Lemma lookup_repeat_each {A} (f : nat) (l : list A) (i : nat) :
  (0 < f)%nat -> concat (map (replicate f) l) !! i = l !! (i / f)%nat.
Proof.
  intros Hf. revert i. induction l as [|a l IH]; intros i.
  - cbn. rewrite !lookup_nil. reflexivity.
  - cbn [map concat].
    destruct (Nat.lt_ge_cases i f) as [Hlt|Hge].
    + rewrite lookup_app_l by (rewrite length_replicate; exact Hlt).
      rewrite lookup_replicate_2 by exact Hlt.
      rewrite Nat.div_small by exact Hlt. reflexivity.
    + rewrite lookup_app_r by (rewrite length_replicate; exact Hge).
      rewrite length_replicate, IH.
      replace i with ((i - f) + 1 * f)%nat at 2 by lia.
      rewrite Nat.div_add by lia.
      replace ((i - f) / f + 1)%nat with (S ((i - f) / f)) by lia. reflexivity.
Qed.

(** A list read off index by index. *)
Lemma omap_seqZ {A} (g : Z -> option A) (l : list A) :
  (forall i : nat, (i < length l)%nat -> g (Z.of_nat i) = l !! i) ->
  omap g (seqZ 0 (Z.of_nat (length l))) = l.
Proof.
  induction l as [|a l IH] using rev_ind; intros Hg; [reflexivity|].
  rewrite length_app. cbn [length].
  replace (length l + 1)%nat with (S (length l)) by lia.
  rewrite seqZ_S, omap_app, IH.
  - cbn [omap list_omap]. replace (0 + Z.of_nat (length l)) with (Z.of_nat (length l)) by lia.
    rewrite (Hg (length l)) by (rewrite length_app; cbn; lia).
    rewrite lookup_app_r by lia. rewrite Nat.sub_diag. reflexivity.
  - intros i Hi. rewrite (Hg i) by (rewrite length_app; cbn; lia).
    apply lookup_app_l. exact Hi.
Qed.

(** [l[0:len(l):step]] holds [l[i * step]] at index [i], and one entry
    for every started block of [step] elements. *)
Lemma every_nth_eq {A} (step : Z) (l out : list A) :
  0 < step ->
  Z.of_nat (length out) = (Z.of_nat (length l) + step - 1) / step ->
  (forall i : nat, (i < length out)%nat -> l !! Z.to_nat (Z.of_nat i * step) = out !! i) ->
  every_nth step l = out.
Proof.
  intros Hs Hlen Hi. unfold every_nth. rewrite <- Hlen. apply omap_seqZ. exact Hi.
Qed.

Lemma omap_seqZ_total {A} (g : Z -> option A) (n : nat) :
  (forall i : nat, (i < n)%nat -> is_Some (g (Z.of_nat i))) ->
  length (omap g (seqZ 0 (Z.of_nat n))) = n
  /\ forall i : nat, (i < n)%nat -> omap g (seqZ 0 (Z.of_nat n)) !! i = g (Z.of_nat i).
Proof.
  induction n as [|n IH]; intros Hg; [split; [reflexivity|lia]|].
  destruct IH as [IHlen IHi]; [intros i Hi; apply Hg; lia|].
  destruct (Hg n ltac:(lia)) as [a Ha].
  rewrite seqZ_S, omap_app. cbn [omap list_omap].
  replace (0 + Z.of_nat n) with (Z.of_nat n) by lia. rewrite Ha. split.
  - rewrite length_app, IHlen. cbn. lia.
  - intros i Hi. destruct (Nat.eq_dec i n) as [->|Hne].
    + rewrite lookup_app_r by lia. rewrite IHlen, Nat.sub_diag, Ha. reflexivity.
    + rewrite lookup_app_l by lia. apply IHi. lia.
Qed.

Lemma every_nth_lookup {A} (step : Z) (l : list A) (i : nat) :
  0 < step -> Z.of_nat i * step < Z.of_nat (length l) ->
  every_nth step l !! i = l !! Z.to_nat (Z.of_nat i * step).
Proof.
  intros Hs Hi. unfold every_nth.
  set (n := (Z.of_nat (length l) + step - 1) / step).
  assert (Hn : 0 <= n) by (apply Z.div_pos; lia).
  assert (Hlt : forall j : nat, Z.of_nat j < n -> Z.of_nat j * step < Z.of_nat (length l)).
  { intros j Hj. subst n.
    pose proof (Z.div_mod (Z.of_nat (length l) + step - 1) step ltac:(lia)) as Hdm.
    pose proof (Z.mod_pos_bound (Z.of_nat (length l) + step - 1) step Hs) as Hmb.
    nia. }
  assert (Hin : Z.of_nat i < n).
  { assert (Z.of_nat i + 1 <= n); [|lia].
    subst n. apply Z.div_le_lower_bound; [exact Hs|nia]. }
  destruct (omap_seqZ_total (fun j => l !! Z.to_nat (j * step)) (Z.to_nat n)) as [_ Hl].
  - intros j Hj. apply lookup_lt_is_Some. specialize (Hlt j ltac:(lia)). lia.
  - rewrite Z2Nat.id in Hl by exact Hn. apply Hl. lia.
Qed.

Lemma length_every_nth {A} (step : Z) (l : list A) :
  0 < step ->
  Z.of_nat (length (every_nth step l)) = (Z.of_nat (length l) + step - 1) / step.
Proof.
  intros Hs. unfold every_nth.
  set (n := (Z.of_nat (length l) + step - 1) / step).
  assert (Hn : 0 <= n) by (apply Z.div_pos; lia).
  destruct (omap_seqZ_total (fun j => l !! Z.to_nat (j * step)) (Z.to_nat n)) as [Hlen _].
  - intros j Hj. apply lookup_lt_is_Some. subst n.
    pose proof (Z.div_mod (Z.of_nat (length l) + step - 1) step ltac:(lia)) as Hdm.
    pose proof (Z.mod_pos_bound (Z.of_nat (length l) + step - 1) step Hs) as Hmb.
    nia.
  - rewrite Z2Nat.id in Hlen by exact Hn. lia.
Qed.

Lemma pad_edge_lookup {A} (n : Z) (l : list A) (i : nat) :
  (i < length l)%nat -> pad_edge n l !! i = l !! i.
Proof.
  intros Hi. unfold pad_edge. destruct (last l); [|reflexivity].
  apply lookup_app_l. exact Hi.
Qed.

Lemma pad_edge_length {A} (n : Z) (l : list A) :
  (length l <= length (pad_edge n l))%nat.
Proof.
  unfold pad_edge. destruct (last l); [|lia]. rewrite length_app. lia.
Qed.

(** *** [upscale_nearest] *)

Lemma get_repeat {A} (arr : list (list A)) (f y x : Z) :
  0 < f -> 0 <= y -> 0 <= x ->
  get (map (repeat_each f) (repeat_each f arr)) y x = get arr (y / f) (x / f).
Proof.
  intros Hf Hy Hx. unfold get, repeat_each.
  change (map (fun l => concat (map (replicate (Z.to_nat f)) l))
              (concat (map (replicate (Z.to_nat f)) arr)))
    with (fmap (M:=list) (fun l : list A => concat (map (replicate (Z.to_nat f)) l))
              (concat (map (replicate (Z.to_nat f)) arr))).
  rewrite list_lookup_fmap, lookup_repeat_each by lia.
  rewrite !Z2Nat.inj_div by lia.
  destruct (arr !! (Z.to_nat y / Z.to_nat f)%nat) as [row|]; [|reflexivity].
  cbn. apply lookup_repeat_each. lia.
Qed.

Lemma upscale_cells {A} (arr : image A) (factor : Z) :
  1 <= factor -> has_shape arr (height arr) (width arr) ->
  exists out,
    upscale_nearest arr factor = Ok out
    /\ has_shape out (height arr * factor) (width arr * factor)
    /\ forall y x, 0 <= y -> 0 <= x -> get out y x = get arr (y / factor) (x / factor).
Proof.
  intros Hf Hs. unfold upscale_nearest.
  destruct (factor <? 1) eqn:E1; [apply Z.ltb_lt in E1; lia|].
  destruct (factor =? 1) eqn:E2.
  - apply Z.eqb_eq in E2. subst factor. exists arr.
    split; [reflexivity|]. rewrite !Z.mul_1_r. split; [exact Hs|].
    intros y x _ _. rewrite !Z.div_1_r. reflexivity.
  - apply Z.eqb_neq in E2. eexists. split; [reflexivity|]. split.
    + destruct Hs as [_ Hrows]. split.
      * rewrite length_map. unfold repeat_each. rewrite length_repeat_each.
        unfold height. lia.
      * apply Forall_lookup. intros i row Hi. cbn beta.
        change (map (repeat_each factor) (repeat_each factor arr))
          with (fmap (M:=list) (repeat_each (A:=rgb A) factor) (repeat_each factor arr)) in Hi.
        rewrite list_lookup_fmap in Hi. unfold repeat_each at 2 in Hi.
        rewrite lookup_repeat_each in Hi by lia.
        match type of Hi with
        | _ <$> ?o = _ => destruct o as [r|] eqn:Hr; cbn in Hi; [|discriminate Hi]
        end.
        injection Hi as <-. unfold repeat_each. rewrite length_repeat_each.
        pose proof (proj1 (Forall_lookup _ _) Hrows _ _ Hr) as Hlen.
        cbn beta in Hlen. lia.
    + intros y x Hy Hx. apply get_repeat; lia.
Qed.

(** [upscale_nearest] rejects a factor below 1; otherwise it multiplies
    both sides of a rectangular image by the factor, and output pixel
    [(y, x)] is input pixel [(y // factor, x // factor)]. *)
Theorem upscale_nearest_spec {A} (arr : image A) (factor : Z) :
  has_shape arr (height arr) (width arr) ->
  (factor < 1 -> upscale_nearest arr factor = Err ValueError)
  /\ (1 <= factor ->
      exists out,
        upscale_nearest arr factor = Ok out
        /\ has_shape out (height arr * factor) (width arr * factor)
        /\ forall y x, 0 <= y < height arr * factor -> 0 <= x < width arr * factor ->
             get out y x = get arr (y / factor) (x / factor)).
Proof.
  intros Hs. split.
  - intros Hf. unfold upscale_nearest.
    destruct (factor <? 1) eqn:E1; [reflexivity|apply Z.ltb_ge in E1; lia].
  - intros Hf. destruct (upscale_cells arr factor Hf Hs) as (out & Hout & Hshape & Hget).
    exists out. split; [exact Hout|]. split; [exact Hshape|].
    intros y x Hy Hx. apply Hget; lia.
Qed.

Lemma upscale_nearest_spec_witness :
  (3 < 1 -> upscale_nearest [[RGB 1 2 3]] 3 = Err ValueError)
  /\ (1 <= 3 ->
      exists out,
        upscale_nearest [[RGB 1 2 3]] 3 = Ok out
        /\ has_shape out (height [[RGB 1 2 3]] * 3) (width [[RGB 1 2 3]] * 3)
        /\ forall y x, 0 <= y < height [[RGB 1 2 3]] * 3 ->
             0 <= x < width [[RGB 1 2 3]] * 3 ->
             get out y x = get [[RGB 1 2 3]] (y / 3) (x / 3)).
Proof.
  apply (upscale_nearest_spec [[RGB 1 2 3]] 3).
  split; [reflexivity|repeat constructor].
Defined.

(** *** [downscale_block_average] *)

(** Padding leaves every pixel of the image where it is. *)
Lemma pad_to_multiple_lookup {A} (arr : image A) (factor : Z) (y : nat)
    (row : list (rgb A)) :
  arr !! y = Some row ->
  (length arr <= length (_pad_to_multiple arr factor))%nat
  /\ exists row', _pad_to_multiple arr factor !! y = Some row'
       /\ (length row <= length row')%nat
       /\ forall x, (x < length row)%nat -> row' !! x = row !! x.
Proof.
  intros Hrow. unfold _pad_to_multiple. unfold image in *.
  destruct (_ && _).
  - split; [lia|]. exists row. split; [exact Hrow|]. split; [lia|]. reflexivity.
  - split.
    + etransitivity; [|apply pad_edge_length]. rewrite length_map. lia.
    + exists (pad_edge ((factor - width arr mod factor) mod factor) row). split; [|split].
      * rewrite pad_edge_lookup
          by (rewrite length_map; apply lookup_lt_is_Some; eauto).
        change (map ?f arr) with (fmap (M:=list) f arr).
        rewrite list_lookup_fmap, Hrow. reflexivity.
      * apply pad_edge_length.
      * intros x Hx. apply pad_edge_lookup. exact Hx.
Qed.

Lemma div_le_ceil (n f : Z) : 0 <= n -> 0 < f -> n / f <= (n + f - 1) / f.
Proof. intros Hn Hf. apply Z.div_le_mono; lia. Qed.

Lemma mul_lt_of_lt_div (i n f : Z) : 0 < f -> 0 <= i < n / f -> i * f < n.
Proof.
  intros Hf Hi. pose proof (Z.div_mod n f ltac:(lia)) as Hdm.
  pose proof (Z.mod_pos_bound n f Hf) as Hmb. nia.
Qed.

Lemma downscale_cells {A} (arr : image A) (factor : Z) :
  1 < factor -> has_shape arr (height arr) (width arr) ->
  factor <= height arr -> factor <= width arr ->
  exists out,
    downscale_block_average arr factor = Ok out
    /\ has_shape out (height arr / factor) (width arr / factor)
    /\ forall i j, 0 <= i < height arr / factor -> 0 <= j < width arr / factor ->
         get out i j = get arr (i * factor) (j * factor).
Proof.
  intros Hf Hs HH HW. unfold downscale_block_average.
  destruct (factor <? 1) eqn:E1; [apply Z.ltb_lt in E1; lia|].
  destruct (factor =? 1) eqn:E2; [apply Z.eqb_eq in E2; lia|].
  assert (Hth : 0 < height arr / factor) by (apply Z.div_str_pos; lia).
  assert (Htw : 0 < width arr / factor) by (apply Z.div_str_pos; lia).
  destruct (height arr / factor =? 0) eqn:E3; [apply Z.eqb_eq in E3; lia|].
  destruct (width arr / factor =? 0) eqn:E4; [apply Z.eqb_eq in E4; lia|].
  cbn [orb]. eexists. split; [reflexivity|].
  set (padded := _pad_to_multiple arr factor).
  (* row [i] of the result *)
  assert (Hrow : forall i : nat, Z.of_nat i < height arr / factor ->
    exists row row',
      arr !! Z.to_nat (Z.of_nat i * factor) = Some row
      /\ Z.of_nat (length row) = width arr
      /\ (length row <= length row')%nat
      /\ (forall x, (x < length row)%nat -> row' !! x = row !! x)
      /\ map (take (Z.to_nat (width arr / factor)))
           (take (Z.to_nat (height arr / factor))
              (map (every_nth factor) (every_nth factor padded))) !! i
         = Some (take (Z.to_nat (width arr / factor)) (every_nth factor row'))).
  { intros i Hi.
    pose proof (mul_lt_of_lt_div (Z.of_nat i) (height arr) factor ltac:(lia) ltac:(lia)) as Hif.
    unfold height in Hif.
    destruct (lookup_lt_is_Some_2 arr (Z.to_nat (Z.of_nat i * factor)) ltac:(lia))
      as [row Hr].
    destruct (pad_to_multiple_lookup arr factor _ row Hr) as (Hlen & row' & Hr' & Hle & Hx).
    exists row, row'. split; [exact Hr|]. split; [|split; [exact Hle|split; [exact Hx|]]].
    - exact (proj1 (Forall_lookup _ _) (proj2 Hs) _ _ Hr).
    - change (map ?f ?l) with (fmap (M:=list) f l).
      rewrite list_lookup_fmap, lookup_take_lt by lia.
      rewrite list_lookup_fmap, every_nth_lookup by (fold padded in Hlen; lia).
      fold padded in Hr'. unfold image in *. rewrite Hr'. reflexivity. }
  split; [split|].
  - rewrite length_map, length_take, length_map.
    pose proof (length_every_nth factor padded ltac:(lia)) as Hl.
    pose proof (div_le_ceil (Z.of_nat (length padded)) factor ltac:(lia) ltac:(lia)).
    assert (Z.of_nat (length arr) <= Z.of_nat (length padded)).
    { destruct arr as [|r0 arr']; [cbn; lia|].
      destruct (pad_to_multiple_lookup (r0 :: arr') factor 0 r0 eq_refl) as [Hlen _].
      fold padded in Hlen. lia. }
    assert (height arr / factor <= Z.of_nat (length padded) / factor)
      by (apply Z.div_le_mono; unfold height; lia).
    lia.
  - apply Forall_lookup. intros i r Hi. cbn beta.
    assert (Hin : Z.of_nat i < height arr / factor).
    { apply lookup_lt_Some in Hi.
      rewrite length_map, length_take in Hi. lia. }
    destruct (Hrow i Hin) as (row & row' & _ & Hw & Hle & _ & Hout).
    rewrite Hout in Hi. injection Hi as <-.
    rewrite length_take.
    pose proof (length_every_nth factor row' ltac:(lia)) as Hl.
    pose proof (div_le_ceil (Z.of_nat (length row')) factor ltac:(lia) ltac:(lia)).
    assert (width arr / factor <= Z.of_nat (length row') / factor)
      by (apply Z.div_le_mono; lia).
    lia.
  - intros i j Hi Hj.
    destruct (Hrow (Z.to_nat i) ltac:(lia)) as (row & row' & Hr & Hw & Hle & Hx & Hout).
    rewrite Z2Nat.id in Hr by lia.
    unfold get at 1. rewrite Hout.
    pose proof (mul_lt_of_lt_div j (width arr) factor ltac:(lia) Hj) as Hjf.
    rewrite lookup_take_lt by lia.
    rewrite every_nth_lookup by lia. rewrite Z2Nat.id by lia.
    rewrite Hx by lia. unfold get. unfold image in *. rewrite Hr. reflexivity.
Qed.

(** [downscale_block_average] rejects a factor below 1 and, for a factor
    above 1, an image with a side shorter than the factor; otherwise the
    result has shape [(H // factor, W // factor)] and its pixel [(i, j)] is
    input pixel [(i * factor, j * factor)], the top-left pixel of the
    block: no averaging takes place and the padding is never read. *)
Theorem downscale_spec {A} (arr : image A) (factor : Z) :
  has_shape arr (height arr) (width arr) ->
  (factor < 1 -> downscale_block_average arr factor = Err ValueError)
  /\ (1 < factor -> height arr < factor \/ width arr < factor ->
      downscale_block_average arr factor = Err ValueError)
  /\ (1 < factor -> factor <= height arr -> factor <= width arr ->
      exists out,
        downscale_block_average arr factor = Ok out
        /\ has_shape out (height arr / factor) (width arr / factor)
        /\ forall i j, 0 <= i < height arr / factor -> 0 <= j < width arr / factor ->
             get out i j = get arr (i * factor) (j * factor)).
Proof.
  intros Hs. split; [|split].
  - intros Hf. unfold downscale_block_average.
    destruct (factor <? 1) eqn:E1; [reflexivity|apply Z.ltb_ge in E1; lia].
  - intros Hf Hsmall. unfold downscale_block_average.
    destruct (factor <? 1) eqn:E1; [apply Z.ltb_lt in E1; lia|].
    destruct (factor =? 1) eqn:E2; [apply Z.eqb_eq in E2; lia|].
    assert (Hz : height arr / factor = 0 \/ width arr / factor = 0).
    { pose proof (width_nonneg arr).
      destruct Hsmall; [left|right]; apply Z.div_small; unfold height in *; lia. }
    destruct Hz as [-> | ->]; [reflexivity|].
    rewrite orb_true_r. reflexivity.
  - intros Hf HH HW. apply downscale_cells; assumption.
Qed.

Lemma downscale_spec_witness :
  (2 < 1 -> downscale_block_average [[RGB 1 2 3; RGB 4 5 6]; [RGB 7 8 9; RGB 0 0 0]] 2
            = Err ValueError)
  /\ (1 < 2 -> height [[RGB 1 2 3; RGB 4 5 6]; [RGB 7 8 9; RGB 0 0 0]] < 2
               \/ width [[RGB 1 2 3; RGB 4 5 6]; [RGB 7 8 9; RGB 0 0 0]] < 2 ->
      downscale_block_average [[RGB 1 2 3; RGB 4 5 6]; [RGB 7 8 9; RGB 0 0 0]] 2
      = Err ValueError)
  /\ (1 < 2 -> 2 <= height [[RGB 1 2 3; RGB 4 5 6]; [RGB 7 8 9; RGB 0 0 0]] ->
      2 <= width [[RGB 1 2 3; RGB 4 5 6]; [RGB 7 8 9; RGB 0 0 0]] ->
      exists out,
        downscale_block_average [[RGB 1 2 3; RGB 4 5 6]; [RGB 7 8 9; RGB 0 0 0]] 2 = Ok out
        /\ has_shape out (height [[RGB 1 2 3; RGB 4 5 6]; [RGB 7 8 9; RGB 0 0 0]] / 2)
             (width [[RGB 1 2 3; RGB 4 5 6]; [RGB 7 8 9; RGB 0 0 0]] / 2)
        /\ forall i j,
             0 <= i < height [[RGB 1 2 3; RGB 4 5 6]; [RGB 7 8 9; RGB 0 0 0]] / 2 ->
             0 <= j < width [[RGB 1 2 3; RGB 4 5 6]; [RGB 7 8 9; RGB 0 0 0]] / 2 ->
             get out i j
             = get [[RGB 1 2 3; RGB 4 5 6]; [RGB 7 8 9; RGB 0 0 0]] (i * 2) (j * 2)).
Proof.
  apply (downscale_spec [[RGB 1 2 3; RGB 4 5 6]; [RGB 7 8 9; RGB 0 0 0]] 2).
  split; [reflexivity|repeat constructor].
Defined.

Lemma has_shape_dims {A} (arr : image A) (H W : Z) :
  has_shape arr H W -> 0 < H -> height arr = H /\ width arr = W.
Proof.
  intros [Hlen Hrows] HH. split; [exact Hlen|].
  destruct arr as [|row arr]; [cbn in Hlen; lia|].
  exact (Forall_inv Hrows).
Qed.

(** Downscaling undoes upscaling: for every factor [>= 1] and every
    rectangular image with at least one pixel,
    [downscale_block_average(upscale_nearest(arr, f), f)] is [arr]. *)
Theorem downscale_upscale_roundtrip {A} (arr : image A) (factor : Z) :
  1 <= factor -> has_shape arr (height arr) (width arr) ->
  0 < height arr -> 0 < width arr ->
  exists up,
    upscale_nearest arr factor = Ok up
    /\ downscale_block_average up factor = Ok arr.
Proof.
  intros Hf Hs HH HW.
  destruct (upscale_cells arr factor Hf Hs) as (up & Hup & Hshape & Hget).
  exists up. split; [exact Hup|].
  destruct (Z.eq_dec factor 1) as [->|Hne].
  - unfold upscale_nearest in Hup. cbn in Hup. injection Hup as <-. reflexivity.
  - destruct (has_shape_dims up _ _ Hshape ltac:(nia)) as [Hh Hw].
    destruct (downscale_cells up factor ltac:(lia)) as (out & Hout & Hos & Hog).
    + rewrite Hh, Hw. exact Hshape.
    + rewrite Hh. nia.
    + rewrite Hw. nia.
    + rewrite Hout. f_equal.
      rewrite Hh, Hw, !Z.div_mul in Hos, Hog by lia.
      apply (buffer_eq out arr (height arr) (width arr) Hos Hs).
      intros i j Hi Hj. rewrite Hog by assumption.
      rewrite Hget by nia. rewrite !Z.div_mul by lia. reflexivity.
Qed.

Lemma downscale_upscale_roundtrip_witness :
  exists up,
    upscale_nearest [[RGB 1 2 3; RGB 4 5 6]] 3 = Ok up
    /\ downscale_block_average up 3 = Ok [[RGB 1 2 3; RGB 4 5 6]].
Proof.
  apply downscale_upscale_roundtrip; [lia| |reflexivity|reflexivity].
  split; [reflexivity|repeat constructor].
Defined.

(** *** Scaling and quantizing *)

Lemma repeat_each_map {A B} (g : A -> B) (f : Z) (l : list A) :
  repeat_each f (map g l) = map g (repeat_each f l).
Proof.
  unfold repeat_each.
  assert (Hrep : forall (n : nat) (a : A), replicate n (g a) = map g (replicate n a)).
  { intros n a. induction n as [|n IHn]; [reflexivity|].
    cbn [replicate map]. rewrite IHn. reflexivity. }
  induction l as [|a l IH]; [reflexivity|].
  cbn [map concat]. rewrite map_app, IH, Hrep. reflexivity.
Qed.

Lemma upscale_img_map {A B} (g : A -> B) (arr : image A) (factor : Z) :
  upscale_nearest (img_map g arr) factor
  = match upscale_nearest arr factor with
    | Ok up => Ok (img_map g up)
    | Err e => Err e
    end.
Proof.
  unfold upscale_nearest.
  destruct (factor <? 1); [reflexivity|]. destruct (factor =? 1); [reflexivity|].
  f_equal. unfold img_map. rewrite repeat_each_map, !map_map.
  apply map_ext. intros row. apply repeat_each_map.
Qed.

(** Quantizing and upscaling commute: [_quantize_none] of the upscaled
    image is the upscaled [_quantize_none] of the image, for every factor
    and every [L]. *)
Theorem quantize_upscale_commute (arr : image Z) (factor L : Z) :
  upscale_nearest (_quantize_none arr L) factor
  = match upscale_nearest arr factor with
    | Ok up => Ok (_quantize_none up L)
    | Err e => Err e
    end.
Proof. unfold _quantize_none. apply upscale_img_map. Qed.

Lemma Forall_repeat_each {A} (P : A -> Prop) (f : Z) (l : list A) :
  Forall P l -> Forall P (repeat_each f l).
Proof.
  intros Hl. unfold repeat_each. induction Hl as [|a l Ha _ IH]; [constructor|].
  cbn [map concat]. apply Forall_app. split; [|exact IH].
  apply Forall_replicate. exact Ha.
Qed.

(** Upscaling adds no colour: if every sample of the image satisfies [P],
    so does every sample of the upscaled image. *)
Theorem upscale_keeps_samples {A} (P : A -> Prop) (arr up : image A) (factor : Z) :
  Forall (Forall (rgb_all P)) arr -> upscale_nearest arr factor = Ok up ->
  Forall (Forall (rgb_all P)) up.
Proof.
  intros Harr. unfold upscale_nearest.
  destruct (factor <? 1); [discriminate|].
  destruct (factor =? 1); intros Hup; injection Hup as <-; [exact Harr|].
  apply Forall_map. apply Forall_repeat_each.
  eapply Forall_impl; [exact Harr|]. cbn. intros row Hrow.
  apply Forall_repeat_each. exact Hrow.
Qed.

Lemma upscale_keeps_samples_witness :
  Forall (Forall (rgb_all (fun v => v = 0 \/ v = 255)))
         [[RGB 0 255 0; RGB 0 255 0]; [RGB 0 255 0; RGB 0 255 0]].
Proof.
  apply (upscale_keeps_samples _ [[RGB 0 255 0]] _ 2); [|reflexivity].
  constructor; [|constructor]. constructor; [|constructor].
  split; [left; reflexivity|]. split; [right; reflexivity|left; reflexivity].
Defined.

(** ** Ordered dithering is monotone *)



Lemma threshold_bounds (size m : Z) :
  0 < size -> 0 <= m < size * size ->
  (- (1 # 2) <= threshold size m)%Q /\ (threshold size m < 1 # 2)%Q.
Proof.
  intros Hs Hm. unfold threshold.
  destruct (size * size) as [|p|p] eqn:Hp; try nia.
  assert (Hq : (inject_Z m / inject_Z (Z.pos p) == m # p)%Q).
  { unfold Qeq, Qdiv, Qmult, Qinv, inject_Z. cbn [Qnum Qden]. lia. }
  rewrite Hq. unfold Qle, Qlt, Qminus, Qplus, Qopp. cbn [Qnum Qden]. split; lia.
Qed.

Lemma occurrences_pos (M : Bayer.matrix) (y x m : Z) :
  get M y x = Some m -> (0 < Bayer.occurrences M m)%nat.
Proof.
  intros Hm. apply get_Some in Hm. destruct Hm as (row & Hrow & Hm).
  unfold Bayer.occurrences, Bayer.matrix in *.
  assert (Hin : m ∈ filter (fun w => w = m) (concat M)).
  { apply list_elem_of_filter. split; [reflexivity|].
    apply list_elem_of_lookup_2 in Hm. apply list_elem_of_lookup_2 in Hrow.
    clear -Hm Hrow. induction M as [|r M IH]; [inversion Hrow|].
    cbn [concat]. apply elem_of_app. inversion Hrow; subst; [left; exact Hm|right; auto]. }
  destruct (filter _ (concat M)); [inversion Hin|cbn; lia].
Qed.



(** ** The error budget of one compiled step *)

(** The sum of one channel over the whole buffer. *)
Definition row_total (c : rgb Qc -> Qc) (row : list (rgb Qc)) : Qc :=
  foldr (fun p acc => Qcplus (c p) acc) (Q2Qc 0) row.

Definition total (c : rgb Qc -> Qc) (w : buffer) : Qc :=
  foldr (fun row acc => Qcplus (row_total c row) acc) (Q2Qc 0) w.

Lemma row_total_alter (c : rgb Qc -> Qc) (f : rgb Qc -> rgb Qc)
    (row : list (rgb Qc)) (x : nat) (p : rgb Qc) :
  row !! x = Some p ->
  row_total c (alter f x row) = Qcplus (row_total c row) (Qcminus (c (f p)) (c p)).
Proof.
  unfold row_total.
  revert x. induction row as [|q row IH]; intros [|x] Hp; try discriminate.
  - cbn in Hp. injection Hp as ->. cbn. ring.
  - cbn in Hp. specialize (IH x Hp). cbn in IH |- *. rewrite IH. ring.
Qed.

Lemma total_upd (c : rgb Qc -> Qc) (f : rgb Qc -> rgb Qc)
    (w : list (list (rgb Qc))) (y x : Z) (p : rgb Qc) :
  get w y x = Some p ->
  total c (upd f w y x) = Qcplus (total c w) (Qcminus (c (f p)) (c p)).
Proof.
  intros Hp. apply get_Some in Hp. destruct Hp as (row & Hrow & Hp).
  unfold upd, total. revert Hrow. generalize (Z.to_nat y) as i. revert row Hp.
  induction w as [|r w IH]; intros row Hp [|i] Hrow; try discriminate.
  - cbn in Hrow. injection Hrow as ->.
    pose proof (row_total_alter c f row _ p Hp) as Hr.
    cbn in Hr |- *. rewrite Hr. ring.
  - cbn in Hrow. specialize (IH row Hp i Hrow). cbn in IH |- *. rewrite IH. ring.
Qed.

(** A channel of a pixel. *)
Definition is_chan (c : rgb Qc -> Qc) : Prop := c = chan0 \/ c = chan1 \/ c = chan2.

Lemma total_add_at (c : rgb Qc -> Qc) (w : buffer) (H W y x : Z) (err : rgb Qc) (wt : Q) :
  is_chan c -> has_shape w H W -> 0 <= y < H -> 0 <= x < W ->
  total c (add_at w y x err wt) = Qcplus (total c w) (Qcmult (c err) (Q2Qc wt)).
Proof.
  intros Hc Hs Hy Hx.
  destruct (get_in_range w H W y x Hs Hy Hx) as [p Hp].
  unfold add_at. rewrite (total_upd c _ w y x p Hp).
  destruct Hc as [->|[->| ->]]; unfold rgb_zip; cbn [chan0 chan1 chan2]; ring.
Qed.

Lemma total_set_at (c : rgb Qc -> Qc) (w : buffer) (y x : Z) (old new : rgb Qc) :
  get w y x = Some old ->
  total c (set_at w y x new) = Qcplus (total c w) (Qcminus (c new) (c old)).
Proof. intros Hold. unfold set_at. apply (total_upd c _ w y x old Hold). Qed.

Ltac interior_guards :=
  unfold in_width; cbn zeta;
  repeat match goal with
    | |- context [?a <=? ?b] =>
        replace (a <=? b) with true by (symmetry; apply Z.leb_le; lia)
    | |- context [?a <? ?b] =>
        replace (a <? b) with true by (symmetry; apply Z.ltb_lt; lia)
    end;
  cbn [andb].

Ltac add_totals H W :=
  repeat (rewrite (total_add_at _ _ H W);
          [|assumption|unfold add_at; repeat apply upd_shape; assumption|lia|lia]).

Lemma floyd_weights :
  Qcplus (Qcplus (Qcplus (Q2Qc (7 # 16)) (Q2Qc (3 # 16))) (Q2Qc (5 # 16))) (Q2Qc (1 # 16))
  = Q2Qc 1.
Proof. apply Qc_is_canon. reflexivity. Qed.

Lemma atkinson_weights :
  Qcplus (Qcplus (Qcplus (Qcplus (Qcplus (Q2Qc (1 # 8)) (Q2Qc (1 # 8))) (Q2Qc (1 # 8)))
                            (Q2Qc (1 # 8))) (Q2Qc (1 # 8))) (Q2Qc (1 # 8))
  = Q2Qc (3 # 4).
Proof. apply Qc_is_canon. reflexivity. Qed.

Lemma sierra_weights :
  Qcplus (Qcplus (Qcplus (Qcplus (Qcplus (Qcplus (Qcplus (Qcplus (Qcplus
    (Q2Qc (5 # 32)) (Q2Qc (3 # 32))) (Q2Qc (2 # 32))) (Q2Qc (4 # 32))) (Q2Qc (5 # 32)))
    (Q2Qc (4 # 32))) (Q2Qc (2 # 32))) (Q2Qc (2 # 32))) (Q2Qc (3 # 32))) (Q2Qc (2 # 32))
  = Q2Qc 1.
Proof. apply Qc_is_canon. reflexivity. Qed.

Section Interior.

Variable c : rgb Qc -> Qc.
Hypothesis Hc : is_chan c.
Variables H W y x dir : Z.
Hypothesis Hdir : dir = 1 \/ dir = -1.
Hypothesis Hy : 0 <= y /\ y + 2 < H.
Hypothesis Hx : 2 <= x /\ x + 2 < W.

Lemma floyd_kernel_total (err : rgb Qc) (w : buffer) :
  has_shape w H W ->
  total c (floyd_kernel H W y x dir err w) = Qcplus (total c w) (c err).
Proof.
  intros Hs. unfold floyd_kernel. destruct Hdir; subst dir; interior_guards;
    add_totals H W; rewrite <- (Qcmult_1_r (c err)) at 5;
    change 1%Qc with (Q2Qc 1); rewrite <- floyd_weights; ring.
Qed.

Lemma atkinson_kernel_total (err : rgb Qc) (w : buffer) :
  has_shape w H W ->
  total c (atkinson_kernel H W y x dir err w)
  = Qcplus (total c w) (Qcmult (c err) (Q2Qc (3 # 4))).
Proof.
  intros Hs. unfold atkinson_kernel. destruct Hdir; subst dir; interior_guards;
    add_totals H W; rewrite <- atkinson_weights; ring.
Qed.

Lemma sierra_kernel_total (err : rgb Qc) (w : buffer) :
  has_shape w H W ->
  total c (sierra_kernel H W y x dir err w) = Qcplus (total c w) (c err).
Proof.
  intros Hs. unfold sierra_kernel. destruct Hdir; subst dir; interior_guards;
    add_totals H W; rewrite <- (Qcmult_1_r (c err)) at 11;
    change 1%Qc with (Q2Qc 1); rewrite <- sierra_weights; ring.
Qed.

End Interior.



(** ** The frame pipeline ([video_frames.py]) *)

(** Sequencing of steps that may raise. *)
Definition and_then {A B} (r : result A) (k : A -> result B) : result B :=
  match r with
  | Ok a => k a
  | Err e => Err e
  end.

Section Pipeline.

Variable cbrt_round : Z -> Z.
Variable has_numba : bool.
Variable dither_burkes : image Z -> Z -> result (image Z).

(** [resize_nearest_scale] of [utils/resize.py] computes its index maps in
    [float32]; the pipeline is embedded over it. *)
Variable resize_nearest_scale : image Z -> Q -> result (image Z).

(** The inner [apply_on(base)]. *)
Definition apply_on (colors : Z) (dither : string) (dither_scale : Q)
    (base : image Z) : result (image Z) :=
  if negb (Qeq_bool dither_scale 1) then
    and_then (resize_nearest_scale base dither_scale) (fun tmp =>
    and_then (apply_dither cbrt_round has_numba dither_burkes tmp colors dither) (fun tmp =>
    if Qeq_bool dither_scale 0 then Err ZeroDivisionError
    else resize_nearest_scale tmp (1 / dither_scale)))
  else apply_dither cbrt_round has_numba dither_burkes base colors dither.

(** [work = upscale_nearest(work, scale_final)] under [if scale_final > 1]. *)
Definition final_upscale (scale_final : Z) (work : image Z) : result (image Z) :=
  if scale_final >? 1 then upscale_nearest work scale_final else Ok work.

(** [process_frame(arr, pixel, colors, dither, stage, dither_scale,
    scale_final)]. *)
Definition process_frame (arr : image Z) (pixel colors : Z) (dither stage : string)
    (dither_scale : Q) (scale_final : Z) : result (image Z) :=
  and_then (if pixel >? 1 then downscale_block_average arr pixel else Ok arr)
    (fun img_ds =>
  and_then (upscale_nearest img_ds 2) (fun img_up1 =>
  and_then (upscale_nearest img_up1 2) (fun img_up2 =>
  and_then (final_upscale scale_final img_up2) (fun img_final_pre =>
  if String.eqb dither "none" then
    Ok (if String.eqb stage "after-upscale1" then img_up1
        else if String.eqb stage "after-upscale2" then img_up2
        else if String.eqb stage "after-downscale" then img_ds
        else img_final_pre)
  else if String.eqb stage "after-downscale" then
    and_then (apply_on colors dither dither_scale img_ds) (fun work =>
    and_then (upscale_nearest work 2) (fun work =>
    and_then (upscale_nearest work 2) (fun work =>
    final_upscale scale_final work)))
  else if String.eqb stage "after-upscale1" then
    and_then (apply_on colors dither dither_scale img_up1) (fun work =>
    and_then (upscale_nearest work 2) (fun work =>
    final_upscale scale_final work))
  else if String.eqb stage "after-upscale2" then
    and_then (apply_on colors dither dither_scale img_up2) (fun work =>
    final_upscale scale_final work)
  else apply_on colors dither dither_scale img_final_pre)))).

End Pipeline.

(** A non-empty rectangular image of [H] rows and [W] columns. *)
Definition sized {A} (arr : image A) (H W : Z) : Prop := has_shape arr H W /\ 0 < H.

Lemma sized_self {A} (arr : image A) (H W : Z) :
  sized arr H W -> has_shape arr (height arr) (width arr) /\ height arr = H /\ width arr = W.
Proof.
  intros [Hs HH]. destruct (has_shape_dims arr H W Hs HH) as [-> ->]. auto.
Qed.

Lemma sized_upscale {A} (P : A -> Prop) (arr : image A) (H W factor : Z) :
  sized arr H W -> 1 <= factor -> Forall (Forall (rgb_all P)) arr ->
  exists up,
    upscale_nearest arr factor = Ok up
    /\ sized up (H * factor) (W * factor)
    /\ Forall (Forall (rgb_all P)) up.
Proof.
  intros Hsz Hf HP. pose proof Hsz as [_ HH].
  destruct (sized_self arr H W Hsz) as (Hs & Hh & Hw).
  destruct (upscale_cells arr factor Hf Hs) as (up & Hup & Hshape & _).
  rewrite Hh, Hw in Hshape.
  exists up. split; [exact Hup|]. split; [split; [exact Hshape|nia]|].
  unfold upscale_nearest in Hup.
  destruct (factor <? 1); [discriminate|].
  destruct (factor =? 1); injection Hup as <-; [exact HP|].
  apply Forall_map. apply Forall_repeat_each.
  eapply Forall_impl; [exact HP|]. cbn. intros row Hrow.
  apply Forall_repeat_each. exact Hrow.
Qed.

Lemma sized_final_upscale {A} (P : A -> Prop) (arr : image A) (H W scale_final : Z) :
  sized arr H W -> Forall (Forall (rgb_all P)) arr ->
  exists up,
    (if scale_final >? 1 then upscale_nearest arr scale_final else Ok arr) = Ok up
    /\ sized up (H * Z.max 1 scale_final) (W * Z.max 1 scale_final)
    /\ Forall (Forall (rgb_all P)) up.
Proof.
  intros Hsz HP. destruct (scale_final >? 1) eqn:E.
  - rewrite Z.max_r by lia. apply sized_upscale; [exact Hsz|lia|exact HP].
  - rewrite Z.max_l by lia. rewrite !Z.mul_1_r. exists arr. auto.
Qed.

Lemma sized_downscale {A} (arr : image A) (H W pixel : Z) :
  sized arr H W -> 0 < W -> (1 < pixel -> pixel <= H /\ pixel <= W) ->
  exists ds,
    (if pixel >? 1 then downscale_block_average arr pixel else Ok arr) = Ok ds
    /\ sized ds (if pixel >? 1 then H / pixel else H) (if pixel >? 1 then W / pixel else W)
    /\ 0 < (if pixel >? 1 then W / pixel else W).
Proof.
  intros Hsz HW Hp. destruct (pixel >? 1) eqn:E.
  - destruct (Hp ltac:(lia)) as [HpH HpW].
    destruct (sized_self arr H W Hsz) as (Hs & Hh & Hw).
    destruct (downscale_cells arr pixel ltac:(lia) Hs ltac:(lia) ltac:(lia))
      as (ds & Hds & Hshape & _).
    rewrite Hh, Hw in Hshape. exists ds. split; [exact Hds|].
    split; [split; [exact Hshape|]|]; apply Z.div_str_pos; lia.
  - exists arr. auto.
Qed.

Lemma Forall_trivial {A} (arr : image A) : Forall (Forall (rgb_all (fun _ => True))) arr.
Proof.
  apply Forall_forall. intros row _. apply Forall_forall. intros p _.
  repeat split.
Qed.

Lemma sized_apply_on (cbrt_round : Z -> Z) (has_numba : bool)
    (dither_burkes : image Z -> Z -> result (image Z))
    (resize : image Z -> Q -> result (image Z))
    (base : image Z) (H W colors : Z) (dither : string) (dither_scale : Q) :
  sized base H W -> 2 <= colors ->
  In (lower dither)
     ["none"; "floyd"; "atkinson"; "sierra"; "bayer2"; "bayer4"; "bayer8"]%string ->
  (dither_scale == 1)%Q ->
  exists L out,
    Levels._levels_from_num_colors cbrt_round colors = Ok L
    /\ apply_on cbrt_round has_numba dither_burkes resize colors dither dither_scale base
       = Ok out
    /\ sized out H W
    /\ Forall (Forall (rgb_all (is_level L))) out.
Proof.
  intros Hsz Hc Hm Hscale. pose proof Hsz as [_ HH].
  destruct (sized_self base H W Hsz) as (Hs & Hh & Hw).
  destruct (apply_dither_ok cbrt_round has_numba dither_burkes base colors dither Hc Hs Hm)
    as (L & out & HL & _ & _ & Hout & Hshape & Hlev).
  exists L, out. split; [exact HL|]. unfold apply_on.
  rewrite (proj2 (Qeq_bool_iff dither_scale 1) Hscale). cbn [negb].
  split; [exact Hout|]. rewrite Hh, Hw in Hshape. split; [split; assumption|exact Hlev].
Qed.

Ltac upscale_next Hsz HP f out Hsz' HP' :=
  let Hup := fresh "Hup" in
  destruct (sized_upscale _ _ _ _ f Hsz ltac:(lia) HP) as (out & Hup & Hsz' & HP');
  rewrite Hup; cbn [and_then].

Ltac final_next Hsz HP s out Hsz' HP' :=
  let Hup := fresh "Hup" in
  destruct (sized_final_upscale _ _ _ _ s Hsz HP) as (out & Hup & Hsz' & HP');
  unfold final_upscale; rewrite Hup; cbn [and_then].

Ltac apply_next cb hn bk rs Hsz Hc Hm Hscale L out HL Hsz' HP' :=
  let Hout := fresh "Hout" in
  destruct (sized_apply_on cb hn bk rs _ _ _ _ _ _ Hsz Hc Hm Hscale)
    as (L & out & HL & Hout & Hsz' & HP');
  rewrite Hout; cbn [and_then].



(** With the dither [none] (in exactly this spelling) [process_frame]
    quantizes nothing and ignores [colors] and [dither_scale]; it returns
    the image the stage starts from, without the upscales that follow the
    stage: at stage [after-downscale] the downscaled frame itself, at
    stage [after-upscale1] the frame upscaled once, whatever
    [scale_final]. *)
Theorem process_frame_none (cbrt_round : Z -> Z) (has_numba : bool)
    (dither_burkes : image Z -> Z -> result (image Z))
    (resize : image Z -> Q -> result (image Z))
    (arr : image Z) (H W pixel : Z) :
  sized arr H W -> 0 < W -> (1 < pixel -> pixel <= H /\ pixel <= W) ->
  exists ds up1,
    (if pixel >? 1 then downscale_block_average arr pixel else Ok arr) = Ok ds
    /\ upscale_nearest ds 2 = Ok up1
    /\ forall colors dither_scale scale_final,
         process_frame cbrt_round has_numba dither_burkes resize
           arr pixel colors "none" "after-downscale" dither_scale scale_final = Ok ds
         /\ process_frame cbrt_round has_numba dither_burkes resize
              arr pixel colors "none" "after-upscale1" dither_scale scale_final = Ok up1.
Proof.
  intros Hsz HW Hp.
  destruct (sized_downscale arr H W pixel Hsz HW Hp) as (ds & Hds & Hsds & _).
  pose proof (Forall_trivial ds) as Tds.
  destruct (sized_upscale _ ds _ _ 2 Hsds ltac:(lia) Tds) as (up1 & Hup1 & Hs1 & T1).
  destruct (sized_upscale _ up1 _ _ 2 Hs1 ltac:(lia) T1) as (up2 & Hup2 & Hs2 & T2).
  exists ds, up1. split; [exact Hds|]. split; [exact Hup1|].
  intros colors dither_scale scale_final.
  destruct (sized_final_upscale _ up2 _ _ scale_final Hs2 T2) as (fin & Hfin & _ & _).
  unfold process_frame, final_upscale.
  rewrite Hds. cbn [and_then]. rewrite Hup1. cbn [and_then].
  rewrite Hup2. cbn [and_then]. rewrite Hfin. cbn [and_then].
  split; reflexivity.
Qed.

Lemma process_frame_none_witness :
  exists ds up1,
    (if 1 >? 1 then downscale_block_average [[RGB 10 20 30]] 1 else Ok [[RGB 10 20 30]])
    = Ok ds
    /\ upscale_nearest ds 2 = Ok up1
    /\ forall colors dither_scale scale_final,
         process_frame Levels.nearest_cbrt true (fun _ _ => Err ValueError)
           (fun a _ => Ok a) [[RGB 10 20 30]] 1 colors "none" "after-downscale"
           dither_scale scale_final = Ok ds
         /\ process_frame Levels.nearest_cbrt true (fun _ _ => Err ValueError)
              (fun a _ => Ok a) [[RGB 10 20 30]] 1 colors "none" "after-upscale1"
              dither_scale scale_final = Ok up1.
Proof.
  apply (process_frame_none _ _ _ _ [[RGB 10 20 30]] 1 1).
  - split; [split; [reflexivity|repeat constructor]|lia].
  - lia.
  - lia.
Defined.
